(** * Mortgage repayment calculator: the form component [ContainerLeft.vue]

    A shallow embedding of the script of
    [src/components/sideleft/ContainerLeft.vue]: the amount normaliser
    ([sanitizeInput], [hasInvalidCharacters], [parseCurrency] and the watcher
    on [amountInput]), the two repayment formulas, [calculate] and
    [clearAll].

    JavaScript numbers are IEEE 754 binary64 values and are modelled by
    Rocq's primitive floats, whose [*], [/], [+] and [-] are the same
    round-to-nearest-even operations.  JavaScript strings are sequences of
    UTF-16 code units and are modelled as lists of code units. *)

From Stdlib Require Import ZArith NArith List Bool Lia String Ascii.
From Stdlib Require Import Floats.
Import ListNotations.

Local Open Scope Z_scope.
#[local] Set Warnings "-inexact-float".

(** ** Strings *)

Definition code_unit := N.
Definition js_string := list code_unit.

(** An ASCII literal as a JavaScript string. *)
Definition js (s : string) : js_string :=
  List.map N_of_ascii (list_ascii_of_string s).
Arguments js s%_string.

Definition chr_dot : code_unit := 46%N.
Definition chr_comma : code_unit := 44%N.
Definition chr_plus : code_unit := 43%N.
Definition chr_minus : code_unit := 45%N.

(** The class [\d] (and [0-9]) of a regular expression without the [u] flag. *)
Definition is_digit (c : code_unit) : bool :=
  (48 <=? c)%N && (c <=? 57)%N.

(** The class [\s]: WhiteSpace and LineTerminator code units. *)
Definition is_space (c : code_unit) : bool :=
  ((9 <=? c)%N && (c <=? 13)%N)
  || (c =? 32)%N || (c =? 160)%N || (c =? 5760)%N
  || ((8192 <=? c)%N && (c <=? 8202)%N)
  || (c =? 8232)%N || (c =? 8233)%N || (c =? 8239)%N
  || (c =? 8287)%N || (c =? 12288)%N || (c =? 65279)%N.

(** [s.replace(/re/g, '')] for a regular expression matching one code unit of
    the class [p]: the code units outside the class are kept. *)
Definition remove_all (p : code_unit -> bool) (s : js_string) : js_string :=
  List.filter (fun c => negb (p c)) s.

(** [re.test(s)] for a one-code-unit class [p]. *)
Definition test_any (p : code_unit -> bool) (s : js_string) : bool :=
  List.existsb p s.

(** [s.split(sep)] for a one-code-unit separator. *)
Fixpoint split (sep : code_unit) (s : js_string) : list js_string :=
  match s with
  | [] => [[]]
  | c :: r =>
      if (c =? sep)%N then [] :: split sep r
      else match split sep r with
           | seg :: segs => (c :: seg) :: segs
           | [] => [[c]]
           end
  end.

(** The longest prefix in the class [p], and the rest. *)
Fixpoint span (p : code_unit -> bool) (s : js_string) : js_string * js_string :=
  match s with
  | [] => ([], [])
  | c :: r =>
      if p c then let (a, b) := span p r in (c :: a, b)
      else ([], s)
  end.

Fixpoint starts_with (pre s : js_string) : bool :=
  match pre, s with
  | [], _ => true
  | _ :: _, [] => false
  | a :: pre', b :: s' => (a =? b)%N && starts_with pre' s'
  end.

(** ** Numbers *)

Local Open Scope float_scope.

(** The mathematical value of a run of decimal digits. *)
Definition digits_value (ds : js_string) : Z :=
  List.fold_left (fun acc c => (10 * acc + (Z.of_N c - 48))%Z) ds 0%Z.

(** The Number value (round to nearest, ties to even) of the positive
    rational [p / q]: the quotient is taken with more than 53 significant
    bits and a sticky bit records a non-zero remainder. *)
Definition round_ratio (p q : Z) : float :=
  let s := Z.max 0 (Z.log2 q - Z.log2 p + 64) in
  let n := Z.shiftl p s in
  let sticky := if (n mod q =? 0)%Z then 0%Z else 1%Z in
  SF2Prim (binary_normalize prec emax (2 * (n / q) + sticky) (- s - 1) false).

(** The Number value of [m * 10 ^ e] for a natural [m]. *)
Definition Number_of_decimal (m e : Z) : float :=
  if (m =? 0)%Z then 0
  else if (0 <=? e)%Z then round_ratio (m * 10 ^ e) 1
  else round_ratio m (10 ^ (- e)).

(** ExponentPart_opt: [e] or [E], an optional sign and at least one digit;
    an incomplete exponent is not part of the literal. *)
Definition exponent_part (s : js_string) : Z :=
  match s with
  | c :: r =>
      if (c =? 101)%N || (c =? 69)%N then
        let (neg, r') :=
          match r with
          | d :: r'' =>
              if (d =? chr_minus)%N then (true, r'')
              else if (d =? chr_plus)%N then (false, r'')
              else (false, r)
          | [] => (false, r)
          end in
        match fst (span is_digit r') with
        | [] => 0%Z
        | ds => if neg then (- digits_value ds)%Z else digits_value ds
        end
      else 0%Z
  | [] => 0%Z
  end.

(** The global [parseFloat] (ECMAScript 19.2.4): leading white space is
    dropped, the longest prefix that is a StrDecimalLiteral is read, and its
    value is rounded to a Number; [NaN] when no prefix is a literal. *)
Definition parseFloat (input : js_string) : float :=
  let trimmed := snd (span is_space input) in
  let (neg, body) :=
    match trimmed with
    | c :: r =>
        if (c =? chr_minus)%N then (true, r)
        else if (c =? chr_plus)%N then (false, r)
        else (false, trimmed)
    | [] => (false, trimmed)
    end in
  let sign (x : float) := if neg then - x else x in
  if starts_with (js "Infinity") body then sign infinity
  else
    let (ip, r1) := span is_digit body in
    let (fp, r2) :=
      match r1 with
      | c :: r => if (c =? chr_dot)%N then span is_digit r else ([], r1)
      | [] => ([], r1)
      end in
    match ip ++ fp with
    | [] => nan
    | ds =>
        sign (Number_of_decimal (digits_value ds)
                (exponent_part r2 - Z.of_nat (List.length fp)))
    end.

(** JavaScript truthiness of a [number | null]: [null], [+0], [-0] and [NaN]
    are falsy. *)
Definition falsy (v : option float) : bool :=
  match v with
  | None => true
  | Some x => is_zero x || is_nan x
  end.

(** ToNumber of a [number | null]: [null] converts to [+0]. *)
Definition ToNumber (v : option float) : float :=
  match v with
  | None => 0
  | Some x => x
  end.

(** ** The component *)

Inductive LoanType := Repayment | InterestOnly.

Record CalculationResult := mkResult { monthly : float; total : float }.

Definition INITIAL_TERM : option float := None.
Definition INITIAL_RATE : option float := None.
Definition INITIAL_TYPE : LoanType := Repayment.

(** The refs of the component, with the types the source declares. *)
Record State := mkState {
  amountInput : js_string;
  amount : option float;
  term : option float;
  rate : option float;
  type : LoanType;
  showAmountError : bool
}.

Definition initial_state : State :=
  mkState [] None INITIAL_TERM INITIAL_RATE INITIAL_TYPE false.

(** What the handlers read from the browser. *)
Record Env := mkEnv {
  innerWidth : Z;
  activeElementCanBlur : bool
}.

(** The events declared by [defineEmits]. *)
Inductive Emission :=
| Calculated (result : CalculationResult)
| Clear.

(** The effects of a handler, in the order in which they happen. *)
Inductive Effect :=
| SetAmountInput (v : js_string)
| SetAmount (v : option float)
| SetTerm (v : option float)
| SetRate (v : option float)
| SetType (v : LoanType)
| SetShowAmountError (v : bool)
| Blur
| Emit (e : Emission).

Inductive Completion (A : Type) :=
| Normal (a : A)
| Throw (msg : string).
Arguments Normal {A} a.
Arguments Throw {A} msg.

(** A handler run: how it completed, the refs afterwards and its effects. *)
Record Run (A : Type) := mkRun {
  completion : Completion A;
  final : State;
  trace : list Effect
}.
Arguments mkRun {A}.
Arguments completion {A}.
Arguments final {A}.
Arguments trace {A}.

Definition M (A : Type) := State -> Run A.

Definition ret {A} (a : A) : M A := fun st => mkRun (Normal a) st [].

Definition bind {A B} (m : M A) (k : A -> M B) : M B := fun st =>
  let r := m st in
  match completion r with
  | Normal a =>
      let r' := k a (final r) in
      mkRun (completion r') (final r') (trace r ++ trace r')
  | Throw msg => mkRun (Throw msg) (final r) (trace r)
  end.

Definition lift {A} (c : Completion A) : M A := fun st => mkRun c st [].

Definition read {A} (f : State -> A) : M A := fun st => mkRun (Normal (f st)) st [].

Definition apply_effect (st : State) (e : Effect) : State :=
  match e with
  | SetAmountInput v =>
      mkState v (amount st) (term st) (rate st) (type st) (showAmountError st)
  | SetAmount v =>
      mkState (amountInput st) v (term st) (rate st) (type st) (showAmountError st)
  | SetTerm v =>
      mkState (amountInput st) (amount st) v (rate st) (type st) (showAmountError st)
  | SetRate v =>
      mkState (amountInput st) (amount st) (term st) v (type st) (showAmountError st)
  | SetType v =>
      mkState (amountInput st) (amount st) (term st) (rate st) v (showAmountError st)
  | SetShowAmountError v =>
      mkState (amountInput st) (amount st) (term st) (rate st) (type st) v
  | Blur | Emit _ => st
  end.

Definition perform (e : Effect) : M unit := fun st =>
  mkRun (Normal tt) (apply_effect st e) [e].

Definition emit (e : Emission) : M unit := perform (Emit e).

Declare Scope handler_scope.
Delimit Scope handler_scope with handler.
Notation "x <- m ;; k" := (bind m (fun x => k))
  (at level 61, m at next level, right associativity) : handler_scope.
Notation "m ;; k" := (bind m (fun _ => k))
  (at level 61, right associativity) : handler_scope.
Local Open Scope handler_scope.

(** *** The amount normaliser *)

Definition sanitizeInput (input : js_string) : js_string :=
  remove_all is_space input.

Definition hasInvalidCharacters (input : js_string) : bool :=
  test_any (fun c => negb (is_digit c || (c =? chr_dot)%N || (c =? chr_comma)%N)) input.

Definition shouldShowError (env : Env) : bool := (1010 <? innerWidth env)%Z.

(** The conditional [decimal ? ... : ...] is on a [string | undefined]:
    [undefined] and the empty string are falsy.  Calling [replace] on an
    [undefined] integer part would throw. *)
Definition parseCurrency (input : js_string) : Completion float :=
  let cleanDecimal :=
    remove_all (fun c => (c =? chr_dot)%N)
      (remove_all (fun c => (c =? chr_comma)%N) input) in
  let parts := split chr_dot input in
  let integer := List.nth_error parts 0 in
  let decimal := List.nth_error parts 1 in
  match decimal with
  | Some ((_ :: _) as d) =>
      match integer with
      | Some i =>
          Normal (parseFloat (remove_all (fun c => negb (is_digit c)) i
                                ++ [chr_dot] ++ d))
      | None => Throw "TypeError: integer is undefined"
      end
  | _ => Normal (parseFloat cleanDecimal)
  end.

(** The callback of [watch(amountInput, ...)]. *)
Definition onAmountInput (env : Env) (newValue : js_string) : M unit :=
  let cleanedValue := sanitizeInput newValue in
  if hasInvalidCharacters cleanedValue then
    perform (SetShowAmountError (shouldShowError env)) ;;
    perform (SetAmount None)
  else
    perform (SetShowAmountError false) ;;
    parsed <- lift (parseCurrency cleanedValue) ;;
    perform (SetAmount (Some parsed)).

(** *** The calculator *)

Section Calculator.

(** [Math.pow]: ECMAScript leaves its result implementation-approximated,
    so the formulas are stated for any implementation. *)
Variable Math_pow : float -> float -> float.

Definition calculateRepayment (principal monthlyRate months : float) : float :=
  let discountFactor := Math_pow (1 + monthlyRate) (- months) in
  (principal * monthlyRate) / (1 - discountFactor).

Definition calculateInterestOnly (principal monthlyRate : float) : float :=
  principal * monthlyRate.

Definition calculate : M unit :=
  amount_value <- read amount ;;
  term_value <- read term ;;
  rate_value <- read rate ;;
  if falsy amount_value || falsy term_value || falsy rate_value then ret tt
  else
    let principal := ToNumber amount_value in
    let months := ToNumber term_value * 12 in
    let monthlyRate := ToNumber rate_value / 100 / 12 in
    type_value <- read type ;;
    let monthlyPayment :=
      match type_value with
      | Repayment => calculateRepayment principal monthlyRate months
      | InterestOnly => calculateInterestOnly principal monthlyRate
      end in
    emit (Calculated (mkResult monthlyPayment (monthlyPayment * months))).

End Calculator.

Definition clearAll (env : Env) : M unit :=
  perform (SetAmountInput []) ;;
  perform (SetAmount None) ;;
  perform (SetTerm INITIAL_TERM) ;;
  perform (SetRate INITIAL_RATE) ;;
  perform (SetType INITIAL_TYPE) ;;
  (if activeElementCanBlur env then perform Blur else ret tt) ;;
  emit Clear.


(** *** The events a run emits *)

Fixpoint emissions (tr : list Effect) : list Emission :=
  match tr with
  | [] => []
  | Emit e :: tr' => e :: emissions tr'
  | _ :: tr' => emissions tr'
  end.

(** [calculate] passes its guard. *)
Definition guard_passes (st : State) : bool :=
  negb (falsy (amount st) || falsy (term st) || falsy (rate st)).

(** ** The form in use *)

(** Modelled from the spec: the parent component that listens to the two
    events and owns the result is not part of the sources.  Following the
    data model of the specification, a calculated event replaces the result
    by the emitted record, and a clear event removes it. *)
Definition deliver (result : option CalculationResult) (e : Emission)
  : option CalculationResult :=
  match e with
  | Calculated r => Some r
  | Clear => None
  end.

Record App := mkApp {
  form : State;
  result : option CalculationResult
}.

Definition initial_app : App := mkApp initial_state None.

(** What the user does to the form.  The [v-model] bindings write the refs;
    a write that changes [amountInput] runs the watcher. *)
Inductive Action :=
| TypeAmount (text : js_string)
| TypeTerm (v : option float)
| TypeRate (v : option float)
| ChooseType (v : LoanType)
| Submit
| ClickClear.

Definition js_string_eqb (a b : js_string) : bool :=
  if List.list_eq_dec N.eq_dec a b then true else false.

Section Form.

Variable Math_pow : float -> float -> float.

(** The handler of an action, followed by the watcher when the handler
    changed [amountInput]. *)
Definition handle (env : Env) (a : Action) : M unit :=
  before <- read amountInput ;;
  match a with
  | TypeAmount text => perform (SetAmountInput text)
  | TypeTerm v => perform (SetTerm v)
  | TypeRate v => perform (SetRate v)
  | ChooseType v => perform (SetType v)
  | Submit => calculate Math_pow
  | ClickClear => clearAll env
  end ;;
  after <- read amountInput ;;
  if js_string_eqb before after then ret tt else onAmountInput env after.

Definition step (app : App) (ea : Env * Action) : App :=
  let r := handle (fst ea) (snd ea) (form app) in
  mkApp (final r) (List.fold_left deliver (emissions (trace r)) (result app)).

Definition run_actions (app : App) (acts : list (Env * Action)) : App :=
  List.fold_left step acts app.

End Form.

(** ** The specification's reading of the normaliser and the formulas *)

Definition digits_only (s : js_string) : js_string :=
  remove_all (fun c => negb (is_digit c)) s.

(** The decimal number with the integer digits [ip] and the fraction digits
    [fp], as a Number; there is none when both are empty. *)
Definition decimal_number (ip fp : js_string) : float :=
  match ip ++ fp with
  | [] => nan
  | ds => Number_of_decimal (digits_value ds) (- Z.of_nat (List.length fp))
  end.

Definition after_last_dot (s : js_string) : js_string :=
  List.last (split chr_dot s) [].

Definition before_last_dot (s : js_string) : js_string :=
  List.firstn (List.length s - List.length (after_last_dot s) - 1) s.

(** Section 4.1 of the specification for a text with a dot: the digits of
    the text before the last dot, a dot, and the text after the last dot,
    parsed as a decimal number. *)
Definition last_dot_reading (s : js_string) : float :=
  parseFloat (digits_only (before_last_dot s) ++ [chr_dot] ++ after_last_dot s).

Section Formulas.

Variable power : float -> float -> float.

(** Section 4.2 of the specification. *)
Definition spec_monthlyRate (annualRatePercent : float) : float :=
  annualRatePercent / 100 / 12.

Definition spec_months (termYears : float) : float := termYears * 12.

Definition spec_monthlyPayment (ty : LoanType)
    (principal annualRatePercent termYears : float) : float :=
  let monthlyRate := spec_monthlyRate annualRatePercent in
  let months := spec_months termYears in
  match ty with
  | Repayment =>
      principal * monthlyRate / (1 - power (1 + monthlyRate) (- months))
  | InterestOnly => principal * monthlyRate
  end.

End Formulas.

(** ** A [Math.pow] to run the examples with

    Exponentiation by squaring for an integral exponent, which is what a
    term of whole years gives; [NaN] otherwise. *)

Definition integral_value (x : float) : option Z :=
  match Prim2SF x with
  | S754_zero _ => Some 0%Z
  | S754_finite s m e =>
      let magnitude :=
        if (0 <=? e)%Z then Some (Zpos m * 2 ^ e)%Z
        else if (Zpos m mod 2 ^ (- e) =? 0)%Z then Some (Zpos m / 2 ^ (- e))%Z
        else None in
      option_map (fun z => if s then (- z)%Z else z) magnitude
  | _ => None
  end.

Fixpoint pow_pos (b : float) (n : positive) : float :=
  match n with
  | xH => b
  | xO p => let h := pow_pos b p in h * h
  | xI p => let h := pow_pos b p in b * (h * h)
  end.

Definition pow_integral (b e : float) : float :=
  match integral_value e with
  | Some Z0 => 1
  | Some (Zpos n) => pow_pos b n
  | Some (Zneg n) => 1 / pow_pos b n
  | None => nan
  end.

Definition sample_state : State :=
  mkState (js "100000") (Some 100000) (Some 25) (Some 5) Repayment false.

(** The precondition of section 4.2 as the specification words it: a value
    is usable when it is present and strictly positive. *)
Definition strictly_positive (v : option float) : bool :=
  match v with
  | Some x => 0 <? x
  | None => false
  end.

(** A form with a negative interest rate, which the number input accepts. *)
Definition negative_rate_state : State :=
  mkState (js "100000") (Some 100000) (Some 25) (Some (-5)) Repayment false.

(** A form with a zero interest rate. *)
Definition zero_rate_state : State :=
  mkState (js "100000") (Some 100000) (Some 25) (Some 0) Repayment false.

(** A session: the user fills the form in and submits it. *)
Definition sample_actions : list (Env * Action) :=
  [(mkEnv 1200 true, TypeAmount (js "100,000"));
   (mkEnv 1200 true, TypeTerm (Some 25));
   (mkEnv 1200 true, TypeRate (Some 5));
   (mkEnv 1200 true, Submit)].

(** ** Predicates used in the statements *)

(** The text is empty or starts outside the class [p]. *)
Definition head_outside (p : code_unit -> bool) (s : js_string) : Prop :=
  match s with
  | [] => True
  | c :: _ => p c = false
  end.

Ltac settle_comparisons c :=
  repeat match goal with
  | |- context [(c =? ?k)%N] =>
      replace (c =? k)%N with false by (symmetry; apply N.eqb_neq; lia)
  | |- context [(?k =? c)%N] =>
      replace (k =? c)%N with false by (symmetry; apply N.eqb_neq; lia)
  | |- context [(c <=? ?k)%N] =>
      first [ replace (c <=? k)%N with true by (symmetry; apply N.leb_le; lia)
            | replace (c <=? k)%N with false by (symmetry; apply N.leb_gt; lia) ]
  | |- context [(?k <=? c)%N] =>
      first [ replace (k <=? c)%N with true by (symmetry; apply N.leb_le; lia)
            | replace (k <=? c)%N with false by (symmetry; apply N.leb_gt; lia) ]
  end.

(** The text starts as an unsigned literal does: with a digit or a dot. *)
Definition number_start (s : js_string) : Prop :=
  match s with
  | [] => True
  | c :: _ => is_digit c = true \/ c = chr_dot
  end.

(** The rest of a text after the digits of a number, when the text is made
    of digits, dots and commas and the number had its dot: nothing, or
    something that starts with a comma or a dot. *)
Definition ends_number (tail : js_string) : Prop :=
  match tail with
  | [] => True
  | c :: _ => c = chr_comma \/ c = chr_dot
  end.

(** The text is over, or goes on with a dot. *)
Definition at_dot_or_end (rest : js_string) : Prop :=
  rest = [] \/ exists r, rest = chr_dot :: r.

(** A calculation stands in [acts]: some submit passed the guard of
    [calculate], and no clear came after it. *)
Definition calculation_stands (pow : float -> float -> float) (app0 : App)
    (acts : list (Env * Action)) : Prop :=
  exists pre env post,
    acts = pre ++ (env, Submit) :: post /\
    guard_passes (form (run_actions pow app0 pre)) = true /\
    (forall env', ~ In (env', ClickClear) post).

(** The principal that belongs to an amount text: what the watcher stores
    in [amount] when it runs on the text. *)
Definition amount_in_sync (st : State) : Prop :=
  if hasInvalidCharacters (sanitizeInput (amountInput st)) then amount st = None
  else exists x,
      parseCurrency (sanitizeInput (amountInput st)) = Normal x /\
      amount st = Some x.

(** The form as mounted or as [clearAll] leaves it, or with the principal of
    its amount text; and the error flag only up for a text with an invalid
    character. *)
Definition form_consistent (st : State) : Prop :=
  (showAmountError st = true ->
   hasInvalidCharacters (sanitizeInput (amountInput st)) = true) /\
  ((amountInput st = [] /\ amount st = None) \/ amount_in_sync st).

(** A binary64 value that is not negative: NaN, or a zero, a finite number
    or an infinity with the sign bit clear. *)
Definition sign_clear (x : spec_float) : Prop :=
  match x with
  | S754_zero s | S754_infinity s | S754_finite s _ _ => s = false
  | S754_nan => True
  end.

(** ** The result panel [ContainerRight.vue] *)

Module ContainerRight.

(** The [gsap.TweenVars] the component uses. *)
Record TweenVars := mkTweenVars {
  opacity : float;
  y : float;
  duration : option float;
  ease : option string
}.

Record AnimationConfig := mkAnimationConfig {
  from : TweenVars;
  to : TweenVars
}.

Definition ENTRANCE_ANIMATION : AnimationConfig :=
  mkAnimationConfig (mkTweenVars 0 40 None None)
    (mkTweenVars 1 0 (Some 0.7) (Some "power2.out"%string)).

Definition EXIT_ANIMATION : AnimationConfig :=
  mkAnimationConfig (mkTweenVars 0 (-40) None None)
    (mkTweenVars 1 0 (Some 0.7) (Some "power2.out"%string)).

(** The two template refs. *)
Inductive ElementRef := resultBox | heroBox.

(** Which template refs hold an element once the next tick has passed. *)
Record Dom := mkDom {
  resultBox_mounted : bool;
  heroBox_mounted : bool
}.

Definition element_value (dom : Dom) (element : ElementRef) : bool :=
  match element with
  | resultBox => resultBox_mounted dom
  | heroBox => heroBox_mounted dom
  end.

(** A call [gsap.fromTo(element, from, to)]. *)
Record Tween := mkTween {
  target : ElementRef;
  tween_from : TweenVars;
  tween_to : TweenVars
}.

(** [executeAnimation]: after [nextTick], animate the element if the ref
    holds one. *)
Definition executeAnimation (dom : Dom) (element : ElementRef)
    (config : AnimationConfig) : list Tween :=
  if element_value dom element then [mkTween element (from config) (to config)]
  else [].

(** Truthiness of the [result] prop: an object is truthy, [null] and
    [undefined] are not. *)
Definition truthy (r : option CalculationResult) : bool :=
  match r with
  | Some _ => true
  | None => false
  end.

(** The callback of [watch(() => props.result, ...)]. *)
Definition onResultChange (dom : Dom) (newVal oldVal : option CalculationResult)
  : list Tween :=
  let isResultAppearing := truthy newVal && negb (truthy oldVal) in
  let isResultDisappearing := negb (truthy newVal) && truthy oldVal in
  (if isResultAppearing then executeAnimation dom resultBox ENTRANCE_ANIMATION
   else [])
  ++ (if isResultDisappearing then executeAnimation dom heroBox EXIT_ANIMATION
      else []).

(** The template: [heroBox] is the root element, [resultBox] is inside
    [v-if="result"]. *)
Definition render (r : option CalculationResult) : Dom :=
  mkDom (truthy r) true.

(** The callback over the successive values of the prop, each time with the
    template rendered for the new value. *)
Fixpoint watch_results (oldVal : option CalculationResult)
    (values : list (option CalculationResult)) : list Tween :=
  match values with
  | [] => []
  | newVal :: rest =>
      onResultChange (render newVal) newVal oldVal ++ watch_results newVal rest
  end.

Definition is_entrance (t : Tween) : bool :=
  match target t with
  | resultBox => true
  | heroBox => false
  end.

(** The tweens take turns: an entrance when [expect_entrance], then an exit,
    and so on. *)
Fixpoint alternate (expect_entrance : bool) (tweens : list Tween) : bool :=
  match tweens with
  | [] => true
  | t :: rest =>
      Bool.eqb (is_entrance t) expect_entrance
      && alternate (negb expect_entrance) rest
  end.

End ContainerRight.

(** ** Facts about binary64 *)

Lemma SFcompare_refl_finite s m e :
  SFcompare (S754_finite s m e) (S754_finite s m e) = Some Eq.
Proof.
  simpl. rewrite Z.compare_refl, Pos.compare_refl. destruct s; reflexivity.
Qed.

Lemma is_nan_spec x : is_nan x = true <-> Prim2SF x = S754_nan.
Proof.
  unfold is_nan. rewrite eqb_spec. unfold SFeqb.
  destruct (Prim2SF x) as [s|s| |s m e].
  - destruct s; simpl; split; discriminate.
  - destruct s; simpl; split; discriminate.
  - simpl. split; reflexivity.
  - rewrite SFcompare_refl_finite. simpl. split; discriminate.
Qed.

Lemma Prim2SF_zero : Prim2SF 0 = S754_zero false.
Proof. reflexivity. Qed.

(** A strictly positive number is truthy. *)
Lemma positive_truthy x : (0 <? x) = true -> is_zero x = false /\ is_nan x = false.
Proof.
  unfold is_zero, is_nan. rewrite ltb_spec, !eqb_spec, Prim2SF_zero.
  unfold SFltb, SFeqb.
  destruct (Prim2SF x) as [s|s| |s m e].
  - destruct s; simpl; discriminate.
  - destruct s; simpl; try discriminate. intros _. split; reflexivity.
  - simpl. discriminate.
  - rewrite SFcompare_refl_finite. destruct s; simpl; try discriminate.
    intros _. split; reflexivity.
Qed.

Lemma positive_not_falsy x : (0 <? x) = true -> falsy (Some x) = false.
Proof.
  intros H. destruct (positive_truthy x H) as [Hz Hn].
  simpl. rewrite Hz, Hn. reflexivity.
Qed.

(** A strictly negative number is truthy as well. *)
Lemma negative_truthy x : (x <? 0) = true -> is_zero x = false /\ is_nan x = false.
Proof.
  unfold is_zero, is_nan. rewrite ltb_spec, !eqb_spec, Prim2SF_zero.
  unfold SFltb, SFeqb.
  destruct (Prim2SF x) as [s|s| |s m e].
  - destruct s; simpl; discriminate.
  - destruct s; simpl; try discriminate. intros _. split; reflexivity.
  - simpl. discriminate.
  - rewrite SFcompare_refl_finite. destruct s; simpl; try discriminate.
    intros _. split; reflexivity.
Qed.


Lemma negative_not_falsy x : (x <? 0) = true -> falsy (Some x) = false.
Proof.
  intros H. destruct (negative_truthy x H) as [Hz Hn].
  simpl. rewrite Hz, Hn. reflexivity.
Qed.

Lemma zero_rate_falsy x : is_zero x = true -> falsy (Some x) = true.
Proof. intros H. simpl. rewrite H. reflexivity. Qed.

(** ** The handlers, unfolded *)

Lemma calculate_unfold pow st :
  calculate pow st =
  if falsy (amount st) || falsy (term st) || falsy (rate st)
  then mkRun (Normal tt) st []
  else
    let months := ToNumber (term st) * 12 in
    let monthlyPayment :=
      spec_monthlyPayment pow (type st) (ToNumber (amount st))
        (ToNumber (rate st)) (ToNumber (term st)) in
    mkRun (Normal tt) st
      [Emit (Calculated (mkResult monthlyPayment (monthlyPayment * months)))].
Proof.
  unfold calculate, bind, read. simpl.
  destruct (falsy (amount st) || falsy (term st) || falsy (rate st)); simpl.
  - reflexivity.
  - destruct (type st); reflexivity.
Qed.

Lemma calculate_guard_fails pow st :
  guard_passes st = false -> calculate pow st = mkRun (Normal tt) st [].
Proof.
  unfold guard_passes. intros H. apply negb_false_iff in H.
  rewrite calculate_unfold, H. reflexivity.
Qed.

Lemma calculate_guard_passes pow st :
  guard_passes st = true ->
  calculate pow st =
  mkRun (Normal tt) st
    [Emit (Calculated
       (mkResult
          (spec_monthlyPayment pow (type st) (ToNumber (amount st))
             (ToNumber (rate st)) (ToNumber (term st)))
          (spec_monthlyPayment pow (type st) (ToNumber (amount st))
             (ToNumber (rate st)) (ToNumber (term st))
           * (ToNumber (term st) * 12))))].
Proof.
  unfold guard_passes. intros H. apply negb_true_iff in H.
  rewrite calculate_unfold, H. reflexivity.
Qed.

Lemma positive_inputs_pass st p t a :
  amount st = Some p -> term st = Some t -> rate st = Some a ->
  (0 <? p) = true -> (0 <? t) = true -> (0 <? a) = true ->
  guard_passes st = true.
Proof.
  intros Hp Ht Ha Pp Pt Pa. unfold guard_passes.
  rewrite Hp, Ht, Ha.
  rewrite (positive_not_falsy _ Pp), (positive_not_falsy _ Pt),
    (positive_not_falsy _ Pa).
  reflexivity.
Qed.

(** ** Splitting at a separator *)

Lemma split_nonempty sep s : split sep s <> [].
Proof.
  destruct s as [|c r]; simpl; [discriminate|].
  destruct (c =? sep)%N; [discriminate|].
  destruct (split sep r); discriminate.
Qed.

Lemma split_cons_other sep c r :
  c <> sep ->
  exists seg segs, split sep r = seg :: segs /\ split sep (c :: r) = (c :: seg) :: segs.
Proof.
  intros Hc. simpl. destruct (N.eqb_spec c sep) as [E|_]; [contradiction|].
  destruct (split sep r) as [|seg segs] eqn:Hs.
  - exfalso. exact (split_nonempty sep r Hs).
  - exists seg, segs. split; reflexivity.
Qed.

(** Without a separator there is one segment, the text itself. *)
Lemma split_no_sep sep s : ~ In sep s -> split sep s = [s].
Proof.
  induction s as [|c r IH]; intros Hn; [reflexivity|].
  assert (Hc : c <> sep) by (intros E; apply Hn; left; exact E).
  destruct (split_cons_other sep c r Hc) as (seg & segs & Hr & Hs).
  rewrite Hs. rewrite IH in Hr by (intros Hin; apply Hn; right; exact Hin).
  injection Hr as <- <-. reflexivity.
Qed.

(** The first segment is the text before the first separator. *)
Lemma split_at_first sep a r :
  ~ In sep a -> split sep (a ++ sep :: r) = a :: split sep r.
Proof.
  induction a as [|c a IH]; intros Hn.
  - simpl. rewrite N.eqb_refl. reflexivity.
  - assert (Hc : c <> sep) by (intros E; apply Hn; left; exact E).
    destruct (split_cons_other sep c (a ++ sep :: r) Hc) as (seg & segs & Hr & Hs).
    simpl app. rewrite Hs.
    rewrite IH in Hr by (intros Hin; apply Hn; right; exact Hin).
    injection Hr as <- <-. reflexivity.
Qed.

(** The code units of a segment are code units of the text, and none of
    them is the separator. *)
Lemma split_segments sep s seg :
  In seg (split sep s) -> forall c, In c seg -> In c s /\ c <> sep.
Proof.
  revert seg. induction s as [|c0 r IH]; intros seg Hin c Hc.
  - simpl in Hin. destruct Hin as [<-|[]]. destruct Hc.
  - simpl in Hin. destruct (N.eqb_spec c0 sep) as [E|Hne].
    + destruct Hin as [<-|Hin]; [destruct Hc|].
      destruct (IH seg Hin c Hc) as [H1 H2]. split; [right; exact H1|exact H2].
    + destruct (split sep r) as [|seg0 segs] eqn:Hs.
      * destruct Hin as [<-|[]]. destruct Hc as [<-|[]].
        split; [left; reflexivity|exact Hne].
      * destruct Hin as [<-|Hin].
        -- destruct Hc as [<-|Hc]; [split; [left; reflexivity|exact Hne]|].
           destruct (IH seg0 (or_introl eq_refl) c Hc) as [H1 H2].
           split; [right; exact H1|exact H2].
        -- destruct (IH seg (or_intror Hin) c Hc) as [H1 H2].
           split; [right; exact H1|exact H2].
Qed.

(** ** Reading a number *)

Lemma span_prefix p D rest :
  (forall c, In c D -> p c = true) -> head_outside p rest ->
  span p (D ++ rest) = (D, rest).
Proof.
  induction D as [|c D IH]; intros HD Hrest.
  - destruct rest as [|c r]; [reflexivity|]. simpl in *. rewrite Hrest. reflexivity.
  - simpl. rewrite (HD c (or_introl eq_refl)).
    rewrite IH by (intros; auto using in_cons). reflexivity.
Qed.

Lemma span_spec p s :
  s = fst (span p s) ++ snd (span p s) /\
  (forall c, In c (fst (span p s)) -> p c = true) /\
  head_outside p (snd (span p s)).
Proof.
  induction s as [|c r IH].
  - simpl. repeat split. intros c [].
  - simpl. destruct (p c) eqn:Hc.
    + destruct (span p r) as [a b]. simpl in *.
      destruct IH as (E & Ha & Hb). repeat split.
      * rewrite E at 1. reflexivity.
      * intros c' [<-|Hin]; auto.
      * exact Hb.
    + simpl. repeat split; [intros c' []|exact Hc].
Qed.

Lemma is_digit_range c : is_digit c = true -> (48 <= c <= 57)%N.
Proof.
  unfold is_digit. rewrite andb_true_iff, !N.leb_le. tauto.
Qed.

Lemma digit_not_space c : is_digit c = true -> is_space c = false.
Proof.
  intros H. apply is_digit_range in H. unfold is_space.
  settle_comparisons c. reflexivity.
Qed.

Lemma parseFloat_unsigned s :
  number_start s ->
  parseFloat s =
    let (ip, r1) := span is_digit s in
    let (fp, r2) :=
      match r1 with
      | c :: r => if (c =? chr_dot)%N then span is_digit r else ([], r1)
      | [] => ([], r1)
      end in
    match ip ++ fp with
    | [] => nan
    | ds =>
        Number_of_decimal (digits_value ds)
          (exponent_part r2 - Z.of_nat (List.length fp))
    end.
Proof.
  destruct s as [|c s]; [reflexivity|]. intros Hc. simpl in Hc.
  assert (Hsp : is_space c = false).
  { destruct Hc as [Hd| ->]; [apply digit_not_space; exact Hd|reflexivity]. }
  assert (Hm : (c =? chr_minus)%N = false).
  { destruct Hc as [Hd| ->]; [|reflexivity]. apply is_digit_range in Hd.
    unfold chr_minus. apply N.eqb_neq. lia. }
  assert (Hp : (c =? chr_plus)%N = false).
  { destruct Hc as [Hd| ->]; [|reflexivity]. apply is_digit_range in Hd.
    unfold chr_plus. apply N.eqb_neq. lia. }
  assert (Hi : starts_with (js "Infinity") (c :: s) = false).
  { change (js "Infinity") with [73; 110; 102; 105; 110; 105; 116; 121]%N.
    cbn [starts_with]. replace (73 =? c)%N with false; [reflexivity|].
    symmetry. apply N.eqb_neq.
    destruct Hc as [Hd| ->]; [apply is_digit_range in Hd; lia|discriminate]. }
  unfold parseFloat.
  replace (span is_space (c :: s)) with (@nil code_unit, c :: s)
    by (simpl; rewrite Hsp; reflexivity).
  cbn [snd]. rewrite Hm, Hp, Hi.
  destruct (span is_digit (c :: s)) as [ip r1].
  destruct (match r1 with
            | [] => ([], r1)
            | c0 :: r => if (c0 =? chr_dot)%N then span is_digit r else ([], r1)
            end) as [fp r2].
  reflexivity.
Qed.

Lemma ends_number_not_digit tail : ends_number tail -> head_outside is_digit tail.
Proof. destruct tail as [|c r]; [trivial|]. intros [-> | ->]; reflexivity. Qed.

Lemma ends_number_no_exponent tail : ends_number tail -> exponent_part tail = 0%Z.
Proof. destruct tail as [|c r]; [reflexivity|]. intros [-> | ->]; reflexivity. Qed.

Lemma number_start_digits D rest :
  (forall c, In c D -> is_digit c = true) -> number_start rest ->
  number_start (D ++ rest).
Proof.
  destruct D as [|c D]; intros HD Hrest; [exact Hrest|].
  left. apply HD. left. reflexivity.
Qed.

(** [parseFloat] of digits, a dot, digits, and a rest that does not go on
    with the number. *)
Lemma parseFloat_decimal D F tail :
  (forall c, In c D -> is_digit c = true) ->
  (forall c, In c F -> is_digit c = true) ->
  ends_number tail ->
  parseFloat (D ++ chr_dot :: F ++ tail) = decimal_number D F.
Proof.
  intros HD HF Htail.
  rewrite parseFloat_unsigned
    by (apply number_start_digits; [exact HD|right; reflexivity]).
  rewrite (span_prefix is_digit D (chr_dot :: F ++ tail) HD) by reflexivity.
  change (chr_dot =? chr_dot)%N with true. cbv iota.
  rewrite (span_prefix is_digit F tail HF (ends_number_not_digit _ Htail)).
  rewrite (ends_number_no_exponent _ Htail).
  unfold decimal_number. reflexivity.
Qed.

(** [parseFloat] of digits alone. *)
Lemma parseFloat_digits D :
  (forall c, In c D -> is_digit c = true) ->
  parseFloat D = decimal_number D [].
Proof.
  intros HD.
  rewrite parseFloat_unsigned.
  - rewrite <- (app_nil_r D) at 1.
    rewrite (span_prefix is_digit D [] HD I).
    unfold decimal_number. reflexivity.
  - rewrite <- (app_nil_r D). apply number_start_digits; [exact HD|exact I].
Qed.

(** ** The amount normaliser *)

(** [parseCurrency] always returns: the array of segments has a first
    element, so the integer part is never [undefined]. *)
Lemma parseCurrency_returns s : exists x, parseCurrency s = Normal x.
Proof.
  unfold parseCurrency.
  destruct (split chr_dot s) as [|i segs] eqn:Hs.
  - exfalso. exact (split_nonempty _ _ Hs).
  - destruct segs as [|[|c d] segs]; simpl; eexists; reflexivity.
Qed.

Lemma onAmountInput_invalid env text st :
  hasInvalidCharacters (sanitizeInput text) = true ->
  onAmountInput env text st =
    mkRun (Normal tt)
      (mkState (amountInput st) None (term st) (rate st) (type st)
         (shouldShowError env))
      [SetShowAmountError (shouldShowError env); SetAmount None].
Proof.
  intros H. unfold onAmountInput. rewrite H. reflexivity.
Qed.

Lemma onAmountInput_valid env text st x :
  hasInvalidCharacters (sanitizeInput text) = false ->
  parseCurrency (sanitizeInput text) = Normal x ->
  onAmountInput env text st =
    mkRun (Normal tt)
      (mkState (amountInput st) (Some x) (term st) (rate st) (type st) false)
      [SetShowAmountError false; SetAmount (Some x)].
Proof.
  intros H Hx. unfold onAmountInput. rewrite H.
  unfold bind, lift, perform. simpl. rewrite Hx. reflexivity.
Qed.

(** *** Texts of digits, dots and commas *)

Lemma hasInvalidCharacters_false s :
  hasInvalidCharacters s = false ->
  forall c, In c s -> is_digit c = true \/ c = chr_dot \/ c = chr_comma.
Proof.
  unfold hasInvalidCharacters, test_any. intros H c Hin.
  assert (Hv : negb (is_digit c || (c =? chr_dot)%N || (c =? chr_comma)%N) = false).
  { destruct (negb _) eqn:E; [|reflexivity].
    rewrite <- H. symmetry. apply existsb_exists. exists c. split; assumption. }
  apply negb_false_iff in Hv. rewrite !orb_true_iff, !N.eqb_eq in Hv. tauto.
Qed.

Lemma digits_only_digits s c : In c (digits_only s) -> is_digit c = true.
Proof.
  unfold digits_only, remove_all. intros H. apply filter_In in H.
  destruct H as [_ H]. rewrite negb_involutive in H. exact H.
Qed.

Lemma digits_only_app s t : digits_only (s ++ t) = digits_only s ++ digits_only t.
Proof. unfold digits_only, remove_all. apply filter_app. Qed.

(** In a text of digits, dots and commas, removing the commas and the dots
    leaves the digits. *)
Lemma cleanDecimal_digits s :
  (forall c, In c s -> is_digit c = true \/ c = chr_dot \/ c = chr_comma) ->
  remove_all (fun c => (c =? chr_dot)%N)
    (remove_all (fun c => (c =? chr_comma)%N) s) = digits_only s.
Proof.
  unfold digits_only, remove_all.
  induction s as [|c s IH]; intros Hv; [reflexivity|].
  assert (IH' := IH (fun c' Hin => Hv c' (or_intror Hin))).
  destruct (Hv c (or_introl eq_refl)) as [Hd|[-> | ->]].
  - cbn [filter]. rewrite Hd. cbn [negb].
    apply is_digit_range in Hd.
    replace (c =? chr_comma)%N with false
      by (symmetry; apply N.eqb_neq; unfold chr_comma; lia).
    cbn [negb filter].
    replace (c =? chr_dot)%N with false
      by (symmetry; apply N.eqb_neq; unfold chr_dot; lia).
    cbn [negb]. rewrite IH'. reflexivity.
  - cbn. exact IH'.
  - cbn. exact IH'.
Qed.

Lemma split_first_two a b rest :
  ~ In chr_dot a -> ~ In chr_dot b -> at_dot_or_end rest ->
  exists segs, split chr_dot (a ++ chr_dot :: b ++ rest) = a :: b :: segs.
Proof.
  intros Ha Hb Hrest. rewrite (split_at_first chr_dot a _ Ha).
  destruct Hrest as [-> | [r ->]].
  - rewrite app_nil_r, (split_no_sep chr_dot b Hb). exists []. reflexivity.
  - rewrite (split_at_first chr_dot b r Hb). eexists. reflexivity.
Qed.

(** What [parseCurrency] returns for a text of digits, dots and commas with
    a dot: [a] is the text before the first dot and [b] the text between the
    first dot and the next one (or the end). *)
Lemma parseCurrency_first_dot s a b rest :
  s = a ++ chr_dot :: b ++ rest ->
  hasInvalidCharacters s = false ->
  ~ In chr_dot a -> ~ In chr_dot b -> at_dot_or_end rest ->
  parseCurrency s =
    Normal (match b with
            | [] => decimal_number (digits_only s) []
            | _ :: _ => decimal_number (digits_only a) (fst (span is_digit b))
            end).
Proof.
  intros Es Hv Ha Hb Hrest.
  assert (Hvalid := hasInvalidCharacters_false s Hv).
  destruct (split_first_two a b rest Ha Hb Hrest) as [segs Hsplit].
  unfold parseCurrency. rewrite Es, Hsplit. cbn [nth_error].
  destruct b as [|c d].
  - rewrite <- Es, (cleanDecimal_digits s Hvalid).
    rewrite (parseFloat_digits _ (digits_only_digits s)). reflexivity.
  - f_equal. fold (digits_only a).
    destruct (span_spec is_digit (c :: d)) as (Eb & HF & Htail).
    set (F := fst (span is_digit (c :: d))) in *.
    set (tail := snd (span is_digit (c :: d))) in *.
    rewrite Eb. change ([chr_dot] ++ F ++ tail) with (chr_dot :: F ++ tail).
    apply parseFloat_decimal; [apply digits_only_digits|exact HF|].
    destruct tail as [|t tail']; [exact I|]. simpl in Htail |- *.
    assert (Hin : In t (c :: d)) by (rewrite Eb; apply in_or_app; right; left; reflexivity).
    destruct (Hvalid t) as [Hd|[-> | ->]].
    + rewrite Es. apply in_or_app. right. right. apply in_or_app. left. exact Hin.
    + congruence.
    + right. reflexivity.
    + left. reflexivity.
Qed.

Lemma last_dot_reading_one_dot a b :
  ~ In chr_dot a -> ~ In chr_dot b ->
  last_dot_reading (a ++ chr_dot :: b) =
    parseFloat (digits_only a ++ [chr_dot] ++ b).
Proof.
  intros Ha Hb. unfold last_dot_reading, before_last_dot, after_last_dot.
  rewrite (split_at_first chr_dot a b Ha), (split_no_sep chr_dot b Hb).
  cbn [last].
  replace (List.length (a ++ chr_dot :: b) - List.length b - 1)%nat
    with (List.length a + 0)%nat
    by (rewrite length_app; simpl; lia).
  rewrite firstn_app_2. cbn [firstn]. rewrite app_nil_r. reflexivity.
Qed.

(** *** The watcher on the amount text *)

(** C1, as stated, fails on a text with two dots: the specification reads
    ["1.2.3"] as 12.3 (digits before the last dot, then the text after it),
    the code yields 1.2 (the first two segments). *)
Lemma normalize_last_dot_counterexample :
  sanitizeInput (js "1.2.3") = js "1.2.3" /\
  hasInvalidCharacters (js "1.2.3") = false /\
  In chr_dot (js "1.2.3") /\
  parseCurrency (js "1.2.3") = Normal 1.2 /\
  last_dot_reading (js "1.2.3") = 12.3 /\
  amount (final (onAmountInput (mkEnv 1200 false) (js "1.2.3") initial_state))
    <> Some (last_dot_reading (js "1.2.3")).
Proof.
  repeat split; try (vm_compute; reflexivity).
  - vm_compute. tauto.
  - intros H. vm_compute in H.
    apply (f_equal (fun v => match v with Some x => x <? 5 | None => false end)) in H.
    vm_compute in H. discriminate.
Qed.

(** Every text with a dot breaks at its first dot, and what follows breaks
    at the next dot or not at all. *)
Lemma break_at_first_dot s :
  In chr_dot s -> exists a r, s = a ++ chr_dot :: r /\ ~ In chr_dot a.
Proof.
  induction s as [|c s IH]; intros Hin; [destruct Hin|].
  destruct (N.eq_dec c chr_dot) as [-> | Hne].
  - exists [], s. split; [reflexivity|]. intros [].
  - destruct Hin as [E|Hin]; [contradiction|].
    destruct (IH Hin) as (a & r & -> & Ha).
    exists (c :: a), r. split; [reflexivity|].
    intros [E|H]; [apply Hne; exact E|exact (Ha H)].
Qed.

Lemma break_at_next_dot r :
  exists b rest, r = b ++ rest /\ ~ In chr_dot b /\ at_dot_or_end rest.
Proof.
  induction r as [|c r IH].
  - exists [], []. repeat split; [intros []|left; reflexivity].
  - destruct (N.eq_dec c chr_dot) as [-> | Hne].
    + exists [], (chr_dot :: r). repeat split; [intros []|].
      right. exists r. reflexivity.
    + destruct IH as (b & rest & -> & Hb & Hrest).
      exists (c :: b), rest. repeat split; [|exact Hrest].
      intros [E|H]; [apply Hne; exact E|exact (Hb H)].
Qed.

Lemma normalize_at_first_dot env st text a b rest :
  sanitizeInput text = a ++ chr_dot :: b ++ rest ->
  hasInvalidCharacters (sanitizeInput text) = false ->
  ~ In chr_dot a -> ~ In chr_dot b -> at_dot_or_end rest ->
  let run := onAmountInput env text st in
  completion run = Normal tt /\
  amount (final run) =
    Some (match b with
          | [] => decimal_number (digits_only (sanitizeInput text)) []
          | _ :: _ => decimal_number (digits_only a) (fst (span is_digit b))
          end) /\
  (rest = [] -> amount (final run) = Some (last_dot_reading (sanitizeInput text))).
Proof.
  intros Es Hv Ha Hb Hrest run.
  assert (Hp := parseCurrency_first_dot _ a b rest Es Hv Ha Hb Hrest).
  subst run. rewrite (onAmountInput_valid env text st _ Hv Hp).
  cbn [completion final amount].
  split; [reflexivity|]. split; [reflexivity|].
  intros ->. rewrite app_nil_r in Es. f_equal.
  rewrite Es, (last_dot_reading_one_dot a b Ha Hb).
  destruct b as [|c d].
  - rewrite digits_only_app, app_nil_r.
    change ([chr_dot] ++ []) with (chr_dot :: [] ++ []).
    rewrite (parseFloat_decimal (digits_only a) [] []
               (digits_only_digits a) (fun c (H : In c []) => match H with end) I).
    reflexivity.
  - assert (Hq : parseCurrency (a ++ chr_dot :: c :: d) =
                 Normal (parseFloat (digits_only a ++ [chr_dot] ++ c :: d))).
    { unfold parseCurrency.
      destruct (split_first_two a (c :: d) [] Ha Hb (or_introl eq_refl))
        as [segs Hs].
      rewrite app_nil_r in Hs. rewrite Hs. reflexivity. }
    rewrite Es, Hq in Hp. injection Hp as Hp. symmetry. exact Hp.
Qed.

(** C1, amended: a whitespace-stripped text of digits, dots and commas with
    a dot is [a ++ "." ++ b ++ rest], where [a] is the text before the first
    dot and [b] the text between the first dot and the next one (or the
    end).  When [b] is not empty the principal is the decimal number whose
    integer part is the digits of [a] and whose decimal part is the leading
    digits of [b]; when [b] is empty it is the number written by all the
    digits of the text.  With exactly one dot this is the reading of the
    specification, and ["1,234.56"] gives 1234.56. *)
Theorem normalize_first_dot env st text :
  hasInvalidCharacters (sanitizeInput text) = false ->
  In chr_dot (sanitizeInput text) ->
  let run := onAmountInput env text st in
  (exists a b rest,
     sanitizeInput text = a ++ chr_dot :: b ++ rest /\
     ~ In chr_dot a /\ ~ In chr_dot b /\ at_dot_or_end rest /\
     completion run = Normal tt /\
     amount (final run) =
       Some (match b with
             | [] => decimal_number (digits_only (sanitizeInput text)) []
             | _ :: _ => decimal_number (digits_only a) (fst (span is_digit b))
             end) /\
     (rest = [] ->
      amount (final run) = Some (last_dot_reading (sanitizeInput text)))) /\
  amount (final (onAmountInput env (js "1,234.56") st)) = Some 1234.56.
Proof.
  intros Hv Hdot run. split; [|vm_compute; reflexivity].
  destruct (break_at_first_dot _ Hdot) as (a & r & Es & Ha).
  destruct (break_at_next_dot r) as (b & rest & -> & Hb & Hrest).
  exists a, b, rest.
  destruct (normalize_at_first_dot env st text a b rest Es Hv Ha Hb Hrest)
    as (Hc & Hamount & Hone).
  repeat split; assumption.
Qed.

Lemma normalize_first_dot_witness :
  hasInvalidCharacters (sanitizeInput (js " 1.2,5.7 ")) = false /\
  In chr_dot (sanitizeInput (js " 1.2,5.7 ")) /\
  amount (final (onAmountInput (mkEnv 1200 false) (js " 1.2,5.7 ") initial_state))
    = Some 1.2 /\
  exists a b rest,
    sanitizeInput (js " 1.2,5.7 ") = a ++ chr_dot :: b ++ rest /\
    ~ In chr_dot a /\ ~ In chr_dot b /\ at_dot_or_end rest /\
    completion (onAmountInput (mkEnv 1200 false) (js " 1.2,5.7 ") initial_state)
      = Normal tt /\
    amount (final (onAmountInput (mkEnv 1200 false) (js " 1.2,5.7 ") initial_state)) =
      Some (match b with
            | [] => decimal_number (digits_only (sanitizeInput (js " 1.2,5.7 "))) []
            | _ :: _ => decimal_number (digits_only a) (fst (span is_digit b))
            end) /\
    (rest = [] ->
     amount (final (onAmountInput (mkEnv 1200 false) (js " 1.2,5.7 ") initial_state))
       = Some (last_dot_reading (sanitizeInput (js " 1.2,5.7 ")))).
Proof.
  split; [reflexivity|].
  split; [vm_compute; tauto|].
  split; [vm_compute; reflexivity|].
  apply (normalize_first_dot (mkEnv 1200 false) initial_state (js " 1.2,5.7 ")).
  - reflexivity.
  - vm_compute. tauto.
Defined.

(** The worked examples of section 8 of the specification. *)
Example normalize_plain_decimal env st :
  amount (final (onAmountInput env (js "1234.56") st)) = Some 1234.56.
Proof. vm_compute. reflexivity. Qed.

Example normalize_one_dot_three_digits env st :
  amount (final (onAmountInput env (js "1.234") st)) = Some 1.234.
Proof. vm_compute. reflexivity. Qed.

(** With an empty segment after the first dot the later segments are not
    ignored: all the digits of the text are read. *)
Example normalize_empty_second_segment env st :
  amount (final (onAmountInput env (js "1..5") st)) = Some 15 /\
  amount (final (onAmountInput env (js "1..") st)) = Some 1 /\
  amount (final (onAmountInput env (js "1.2.3") st)) = Some 1.2.
Proof. repeat split; vm_compute; reflexivity. Qed.

Example normalize_strips_whitespace env st :
  amount (final (onAmountInput env (js "  100  ") st)) = Some 100.
Proof. vm_compute. reflexivity. Qed.

(** C5, as stated, fails in a window of at most 1010 pixels: the text
    ["12a3"] has an invalid character and the principal becomes null, but the
    flag is not raised. *)
Lemma invalid_text_narrow_window_counterexample :
  hasInvalidCharacters (sanitizeInput (js "12a3")) = true /\
  amount (final (onAmountInput (mkEnv 800 false) (js "12a3") initial_state)) = None /\
  showAmountError (final (onAmountInput (mkEnv 800 false) (js "12a3") initial_state))
    = false.
Proof. repeat split. Qed.

(** C5, amended: when the whitespace-stripped text has a character other
    than a digit, a dot or a comma, the watcher sets the principal to null
    and sets the flag to [window.innerWidth > 1010]: the flag is raised in a
    window wider than 1010 pixels and lowered otherwise.  No other ref
    changes. *)
Theorem invalid_text_null_principal_gated_flag env text st :
  hasInvalidCharacters (sanitizeInput text) = true ->
  let run := onAmountInput env text st in
  completion run = Normal tt /\
  amount (final run) = None /\
  showAmountError (final run) = (1010 <? innerWidth env)%Z /\
  final run =
    mkState (amountInput st) None (term st) (rate st) (type st)
      (1010 <? innerWidth env)%Z.
Proof.
  intros H run. subst run. rewrite (onAmountInput_invalid env text st H).
  repeat split.
Qed.

Lemma invalid_text_null_principal_gated_flag_witness :
  hasInvalidCharacters (sanitizeInput (js "12a3")) = true /\
  completion (onAmountInput (mkEnv 1200 false) (js "12a3") initial_state) = Normal tt /\
  amount (final (onAmountInput (mkEnv 1200 false) (js "12a3") initial_state)) = None /\
  showAmountError (final (onAmountInput (mkEnv 1200 false) (js "12a3") initial_state))
    = (1010 <? 1200)%Z /\
  final (onAmountInput (mkEnv 1200 false) (js "12a3") initial_state) =
    mkState [] None None None Repayment (1010 <? 1200)%Z.
Proof.
  split; [reflexivity|].
  apply (invalid_text_null_principal_gated_flag (mkEnv 1200 false) (js "12a3")
           initial_state).
  reflexivity.
Defined.

(** C9: after the watcher has run, the flag is raised only if the
    whitespace-stripped text has a character other than a digit, a dot or a
    comma; for a text without such a character the flag is false afterwards,
    whatever it was before. *)
Theorem flag_raised_only_for_invalid_text env text st :
  let run := onAmountInput env text st in
  (showAmountError (final run) = true ->
   hasInvalidCharacters (sanitizeInput text) = true) /\
  (hasInvalidCharacters (sanitizeInput text) = false ->
   showAmountError (final run) = false).
Proof.
  intros run. subst run.
  destruct (hasInvalidCharacters (sanitizeInput text)) eqn:H.
  - split; [reflexivity|discriminate].
  - destruct (parseCurrency_returns (sanitizeInput text)) as [x Hx].
    rewrite (onAmountInput_valid env text st x H Hx).
    split; [discriminate|reflexivity].
Qed.

Lemma flag_raised_only_for_invalid_text_witness :
  let st := mkState (js "12a3") None None None Repayment true in
  let run := onAmountInput (mkEnv 1200 false) (js "123") st in
  (showAmountError (final run) = true ->
   hasInvalidCharacters (sanitizeInput (js "123")) = true) /\
  (hasInvalidCharacters (sanitizeInput (js "123")) = false ->
   showAmountError (final run) = false).
Proof.
  exact (flag_raised_only_for_invalid_text (mkEnv 1200 false) (js "123")
           (mkState (js "12a3") None None None Repayment true)).
Defined.

Lemma digits_only_none s :
  (forall c, In c s -> is_digit c = false) -> digits_only s = [].
Proof.
  unfold digits_only, remove_all.
  induction s as [|c s IH]; intros H; [reflexivity|].
  cbn [filter]. rewrite (H c (or_introl eq_refl)). cbn [negb].
  apply IH. intros c' Hin. apply H. right. exact Hin.
Qed.

(** A text of dots and commas only is read as NaN. *)
Lemma parseCurrency_no_digit s :
  hasInvalidCharacters s = false ->
  (forall c, In c s -> is_digit c = false) ->
  parseCurrency s = Normal nan.
Proof.
  intros Hv Hnd. assert (Hvalid := hasInvalidCharacters_false s Hv).
  assert (Hseg := split_segments chr_dot s).
  unfold parseCurrency.
  rewrite (cleanDecimal_digits s Hvalid), (digits_only_none s Hnd).
  destruct (split chr_dot s) as [|i segs] eqn:Hs.
  - exfalso. exact (split_nonempty _ _ Hs).
  - destruct segs as [|[|c d] segs]; cbn [nth_error]; try reflexivity.
    fold (digits_only i).
    rewrite (digits_only_none i).
    + assert (Hc : c = chr_comma).
      { destruct (Hseg (c :: d) (or_intror (or_introl eq_refl)) c (or_introl eq_refl))
          as [Hin Hne].
        destruct (Hvalid c Hin) as [Hd|[E|E]]; [|contradiction|exact E].
        rewrite (Hnd c Hin) in Hd. discriminate. }
      rewrite Hc. reflexivity.
    + intros c' Hin. apply Hnd.
      exact (proj1 (Hseg i (or_introl eq_refl) c' Hin)).
Qed.

(** C7: the watcher returns normally for every text; a text of valid
    characters without a digit, such as the empty text, gives the principal
    NaN; and [calculate] with a NaN principal has no effect and emits
    nothing. *)
Theorem normalize_never_throws_nan_is_no_principal pow :
  (forall env text st, completion (onAmountInput env text st) = Normal tt) /\
  (forall env st, amount (final (onAmountInput env [] st)) = Some nan) /\
  (forall env text st,
     hasInvalidCharacters (sanitizeInput text) = false ->
     (forall c, In c (sanitizeInput text) -> is_digit c = false) ->
     amount (final (onAmountInput env text st)) = Some nan) /\
  (forall st, amount st = Some nan -> calculate pow st = mkRun (Normal tt) st []).
Proof.
  repeat split.
  - intros env text st.
    destruct (hasInvalidCharacters (sanitizeInput text)) eqn:H.
    + rewrite (onAmountInput_invalid env text st H). reflexivity.
    + destruct (parseCurrency_returns (sanitizeInput text)) as [x Hx].
      rewrite (onAmountInput_valid env text st x H Hx). reflexivity.
  - intros env text st Hv Hnd.
    rewrite (onAmountInput_valid env text st nan Hv
               (parseCurrency_no_digit _ Hv Hnd)).
    reflexivity.
  - intros st Ha. apply calculate_guard_fails.
    unfold guard_passes. rewrite Ha. reflexivity.
Qed.

Lemma normalize_never_throws_nan_is_no_principal_witness :
  amount (final (onAmountInput (mkEnv 1200 false) (js " ., ") initial_state))
    = Some nan /\
  calculate pow_integral
    (mkState (js "") (Some nan) (Some 25) (Some 5) Repayment false)
  = mkRun (Normal tt)
      (mkState (js "") (Some nan) (Some 25) (Some 5) Repayment false) [].
Proof.
  destruct (normalize_never_throws_nan_is_no_principal pow_integral)
    as (_ & _ & Hnd & Hcalc).
  split.
  - apply Hnd.
    + reflexivity.
    + vm_compute. intros c [<-|[<-|[]]]; reflexivity.
  - apply Hcalc. reflexivity.
Defined.

(** C10: [clearAll] writes the empty string to [amountInput], null to
    [amount], [term] and [rate], and ['repayment'] to [type], then blurs the
    active element if there is one, and emits the clear event last; the
    error flag is left as it was. *)
Theorem clearAll_resets_form env st :
  clearAll env st =
    mkRun (Normal tt)
      (mkState [] None None None Repayment (showAmountError st))
      ([SetAmountInput []; SetAmount None; SetTerm None; SetRate None;
        SetType Repayment]
       ++ (if activeElementCanBlur env then [Blur] else [])
       ++ [Emit Clear]).
Proof.
  unfold clearAll, bind, emit, perform, ret. simpl.
  destruct (activeElementCanBlur env); reflexivity.
Qed.

(** ** The calculator *)

(** C2, as stated, fails: a negative interest rate is not strictly positive,
    yet [calculate] passes its guard and emits a result. *)
Lemma calculate_negative_rate_emits :
  strictly_positive (rate negative_rate_state) = false /\
  calculate pow_integral negative_rate_state =
    mkRun (Normal tt) negative_rate_state
      [Emit (Calculated (mkResult 166.70203207205606 50010.609621616815))].
Proof. split; vm_compute; reflexivity. Qed.

(** C2, amended: when the principal, the term or the rate is absent, zero
    or NaN (that is, falsy), [calculate] has no effect at all: it returns
    normally, writes no ref and emits no event, so that whatever a listener
    built from earlier events stays as it was. *)
Theorem calculate_falsy_input_is_noop pow st :
  falsy (amount st) || falsy (term st) || falsy (rate st) = true ->
  calculate pow st = mkRun (Normal tt) st [] /\
  forall (P : Type) (listener : P -> Emission -> P) (p : P),
    List.fold_left listener (emissions (trace (calculate pow st))) p = p.
Proof.
  intros H. rewrite calculate_unfold, H. split; reflexivity.
Qed.

Lemma calculate_falsy_input_is_noop_witness :
  falsy (amount zero_rate_state) || falsy (term zero_rate_state)
    || falsy (rate zero_rate_state) = true /\
  calculate pow_integral zero_rate_state = mkRun (Normal tt) zero_rate_state [] /\
  forall (P : Type) (listener : P -> Emission -> P) (p : P),
    List.fold_left listener
      (emissions (trace (calculate pow_integral zero_rate_state))) p = p.
Proof.
  split; [reflexivity|].
  apply (calculate_falsy_input_is_noop pow_integral zero_rate_state).
  reflexivity.
Defined.

(** C3: with a present and strictly positive principal, rate and term,
    [calculate] emits exactly one calculated event, whose monthly payment is
    [principal * monthlyRate / (1 - (1 + monthlyRate) ^ (- months))] for a
    repayment loan and [principal * monthlyRate] for an interest-only loan,
    where [monthlyRate = rate / 100 / 12] and [months = term * 12]. *)
Theorem calculate_emits_formula pow st principal termYears annualRatePercent :
  amount st = Some principal ->
  term st = Some termYears ->
  rate st = Some annualRatePercent ->
  (0 <? principal) = true ->
  (0 <? termYears) = true ->
  (0 <? annualRatePercent) = true ->
  let monthlyRate := annualRatePercent / 100 / 12 in
  let months := termYears * 12 in
  exists r,
    calculate pow st = mkRun (Normal tt) st [Emit (Calculated r)] /\
    monthly r =
      match type st with
      | Repayment => principal * monthlyRate / (1 - pow (1 + monthlyRate) (- months))
      | InterestOnly => principal * monthlyRate
      end.
Proof.
  intros Hp Ht Ha Pp Pt Pa monthlyRate months.
  rewrite (calculate_guard_passes pow st
             (positive_inputs_pass st _ _ _ Hp Ht Ha Pp Pt Pa)).
  eexists. split; [reflexivity|].
  rewrite Hp, Ht, Ha. simpl. destruct (type st); reflexivity.
Qed.

Lemma calculate_emits_formula_witness :
  (0 <? 100000) = true /\ (0 <? 25) = true /\ (0 <? 5) = true /\
  exists r,
    calculate pow_integral sample_state =
      mkRun (Normal tt) sample_state [Emit (Calculated r)] /\
    monthly r =
      100000 * (5 / 100 / 12) / (1 - pow_integral (1 + 5 / 100 / 12) (- (25 * 12))).
Proof.
  repeat (split; [reflexivity|]).
  apply (calculate_emits_formula pow_integral sample_state 100000 25 5);
    reflexivity.
Defined.

(** The worked examples of section 8 of the specification, run with
    [pow_integral] for [Math.pow]: about 584.59 a month for a repayment loan
    and 416.67 for an interest-only one. *)
Example calculate_sample_repayment :
  emissions (trace (calculate pow_integral sample_state)) =
    [Calculated (mkResult 584.59004150797819 175377.01245239345)].
Proof. vm_compute. reflexivity. Qed.

Example calculate_sample_interest_only :
  emissions (trace (calculate pow_integral
                      (apply_effect sample_state (SetType InterestOnly)))) =
    [Calculated (mkResult (100000 * (5 / 100 / 12)) 125000)].
Proof. vm_compute. reflexivity. Qed.

(** C4: in every successful calculation the emitted total is the emitted
    monthly payment times the number of months, [termYears * 12]. *)
Theorem total_is_monthly_times_months pow st termYears :
  guard_passes st = true ->
  term st = Some termYears ->
  exists r,
    emissions (trace (calculate pow st)) = [Calculated r] /\
    total r = monthly r * (termYears * 12).
Proof.
  intros Hg Ht. rewrite (calculate_guard_passes pow st Hg).
  eexists. split; [reflexivity|]. simpl. rewrite Ht. reflexivity.
Qed.

Lemma total_is_monthly_times_months_witness :
  guard_passes sample_state = true /\
  exists r,
    emissions (trace (calculate pow_integral sample_state)) = [Calculated r] /\
    total r = monthly r * (25 * 12).
Proof.
  split; [reflexivity|].
  apply (total_is_monthly_times_months pow_integral sample_state 25);
    reflexivity.
Defined.

(** The product is grouped as the code groups it: in binary64 the other
    grouping can differ in the last place. *)
Remark months_grouping :
  (0.1 * 3) * 12 = 3.6000000000000005 /\ 0.1 * (3 * 12) = 3.6 /\
  ((0.1 * 3) * 12 =? 0.1 * (3 * 12)) = false.
Proof. repeat split; vm_compute; reflexivity. Qed.

(** C6, as stated, fails: with a rate of exactly zero on a repayment loan
    the formula is not reached; [calculate] returns at its guard. *)
Lemma calculate_zero_rate_not_reached :
  rate zero_rate_state = Some 0 /\ type zero_rate_state = Repayment /\
  calculate pow_integral zero_rate_state = mkRun (Normal tt) zero_rate_state [].
Proof. repeat split; vm_compute; reflexivity. Qed.

Lemma zero_times_over_zero p : is_nan (p * 0 / 0) = true.
Proof.
  apply is_nan_spec. rewrite div_spec, mul_spec, Prim2SF_zero.
  destruct (Prim2SF p) as [s|s| |s m e]; try destruct s; reflexivity.
Qed.

(** C6, amended: a rate of exactly zero (of either sign) is rejected by the
    guard of [calculate], which returns before any formula is evaluated.
    The repayment formula itself has no case for a zero rate: called with a
    monthly rate of zero it divides zero by zero whenever
    [Math.pow(1, -months)] is 1. *)
Theorem calculate_zero_rate_rejected pow st annualRatePercent :
  rate st = Some annualRatePercent ->
  is_zero annualRatePercent = true ->
  calculate pow st = mkRun (Normal tt) st [] /\
  forall principal months,
    pow 1 (- months) = 1 ->
    is_nan (calculateRepayment pow principal 0 months) = true.
Proof.
  intros Hr Hz. split.
  - apply calculate_guard_fails. unfold guard_passes.
    rewrite Hr, (zero_rate_falsy _ Hz), !orb_true_r. reflexivity.
  - intros principal months Hpow. unfold calculateRepayment.
    change (1 + 0) with 1. rewrite Hpow. change (1 - 1) with 0.
    apply zero_times_over_zero.
Qed.

(** A rate that is not zero can still give a zero denominator: a rate so
    small that [1 + monthlyRate] rounds to 1 passes the guard. *)
Example calculate_vanishing_rate :
  emissions
    (trace (calculate pow_integral
              (mkState (js "100000") (Some 100000) (Some 25) (Some 1e-14)
                 Repayment false))) =
    [Calculated (mkResult infinity infinity)].
Proof. vm_compute. reflexivity. Qed.

Lemma calculate_zero_rate_rejected_witness :
  is_zero 0 = true /\
  calculate pow_integral zero_rate_state = mkRun (Normal tt) zero_rate_state [] /\
  forall principal months,
    pow_integral 1 (- months) = 1 ->
    is_nan (calculateRepayment pow_integral principal 0 months) = true.
Proof.
  split; [reflexivity|].
  apply (calculate_zero_rate_rejected pow_integral zero_rate_state 0);
    reflexivity.
Defined.

(** ** The form in use *)

Lemma emissions_app t1 t2 : emissions (t1 ++ t2) = emissions t1 ++ emissions t2.
Proof.
  induction t1 as [|e t1 IH]; [reflexivity|].
  destruct e; simpl; rewrite IH; reflexivity.
Qed.

Lemma js_string_eqb_refl a : js_string_eqb a a = true.
Proof.
  unfold js_string_eqb. destruct (list_eq_dec N.eq_dec a a); congruence.
Qed.

(** The watcher emits nothing. *)
Lemma onAmountInput_silent env text st :
  emissions (trace (onAmountInput env text st)) = [].
Proof.
  destruct (hasInvalidCharacters (sanitizeInput text)) eqn:H.
  - rewrite (onAmountInput_invalid env text st H). reflexivity.
  - destruct (parseCurrency_returns (sanitizeInput text)) as [x Hx].
    rewrite (onAmountInput_valid env text st x H Hx). reflexivity.
Qed.

Lemma clearAll_effects env st :
  completion (clearAll env st) = Normal tt /\
  final (clearAll env st) =
    mkState [] None None None Repayment (showAmountError st) /\
  emissions (trace (clearAll env st)) = [Clear].
Proof.
  unfold clearAll, bind, emit, perform, ret. simpl.
  destruct (activeElementCanBlur env); repeat split.
Qed.

(** The handler of an action proper, before the watcher. *)
Lemma handle_run pow env a st :
  let body :=
    match a with
    | TypeAmount text => perform (SetAmountInput text)
    | TypeTerm v => perform (SetTerm v)
    | TypeRate v => perform (SetRate v)
    | ChooseType v => perform (SetType v)
    | Submit => calculate pow
    | ClickClear => clearAll env
    end in
  let st' := final (body st) in
  let watcher :=
    (if js_string_eqb (amountInput st) (amountInput st') then ret tt
     else onAmountInput env (amountInput st')) st' in
  completion (body st) = Normal tt ->
  trace (handle pow env a st) = trace (body st) ++ trace watcher /\
  final (handle pow env a st) = final watcher.
Proof.
  intros body st' watcher Hc. unfold handle.
  fold body. unfold bind, read. cbn [completion final trace].
  rewrite Hc. cbn [completion final trace app]. split; reflexivity.
Qed.

Lemma body_completes pow env a st :
  completion
    (match a with
     | TypeAmount text => perform (SetAmountInput text)
     | TypeTerm v => perform (SetTerm v)
     | TypeRate v => perform (SetRate v)
     | ChooseType v => perform (SetType v)
     | Submit => calculate pow
     | ClickClear => clearAll env
     end st) = Normal tt.
Proof.
  destruct a; try reflexivity.
  - rewrite calculate_unfold.
    destruct (falsy (amount st) || falsy (term st) || falsy (rate st));
      reflexivity.
  - exact (proj1 (clearAll_effects env st)).
Qed.

Lemma watcher_silent env before st :
  emissions
    (trace ((if js_string_eqb before (amountInput st) then ret tt
             else onAmountInput env (amountInput st)) st)) = [].
Proof.
  destruct (js_string_eqb before (amountInput st)); [reflexivity|].
  apply onAmountInput_silent.
Qed.

Lemma handle_emissions pow env a st :
  emissions (trace (handle pow env a st)) =
    match a with
    | Submit => emissions (trace (calculate pow st))
    | ClickClear => [Clear]
    | _ => []
    end.
Proof.
  rewrite (proj1 (handle_run pow env a st (body_completes pow env a st))).
  rewrite emissions_app, watcher_silent, app_nil_r.
  destruct a; try reflexivity.
  exact (proj2 (proj2 (clearAll_effects env st))).
Qed.

Lemma handle_submit_final pow env st :
  final (handle pow env Submit st) = st.
Proof.
  rewrite (proj2 (handle_run pow env Submit st (body_completes pow env Submit st))).
  assert (Hf : final (calculate pow st) = st).
  { rewrite calculate_unfold.
    destruct (falsy (amount st) || falsy (term st) || falsy (rate st));
      reflexivity. }
  rewrite Hf, js_string_eqb_refl. reflexivity.
Qed.

(** The result after one action. *)
Lemma step_result pow app env a :
  result (step pow app (env, a)) =
    match a with
    | Submit =>
        if guard_passes (form app) then
          List.fold_left deliver (emissions (trace (calculate pow (form app)))) None
        else result app
    | ClickClear => None
    | _ => result app
    end.
Proof.
  unfold step. cbn [fst snd result]. rewrite handle_emissions.
  destruct a; try reflexivity.
  destruct (guard_passes (form app)) eqn:Hg.
  - rewrite (calculate_guard_passes pow _ Hg). reflexivity.
  - rewrite (calculate_guard_fails pow _ Hg). reflexivity.
Qed.

Lemma run_actions_snoc pow app acts x :
  run_actions pow app (acts ++ [x]) = step pow (run_actions pow app acts) x.
Proof. unfold run_actions. rewrite fold_left_app. reflexivity. Qed.

Lemma snoc_split {A} (l pre post : list A) (x y : A) :
  l ++ [x] = pre ++ y :: post ->
  (post = [] /\ pre = l /\ y = x) \/
  (exists post', post = post' ++ [x] /\ l = pre ++ y :: post').
Proof.
  destruct post as [|z post' _] using rev_ind; intros H.
  - left. apply app_inj_tail in H. destruct H as [-> ->]. repeat split.
  - right. exists post'.
    change (pre ++ y :: post' ++ [z]) with (pre ++ (y :: post') ++ [z]) in H.
    rewrite app_assoc in H. apply app_inj_tail in H. destruct H as [-> ->].
    split; reflexivity.
Qed.

Lemma calculation_stands_snoc_clear pow app0 acts env :
  ~ calculation_stands pow app0 (acts ++ [(env, ClickClear)]).
Proof.
  intros (pre & env0 & post & E & _ & Hno).
  destruct (snoc_split _ _ _ _ _ E) as [(_ & _ & Heq)|(post' & -> & _)].
  - discriminate.
  - apply (Hno env). apply in_or_app. right. left. reflexivity.
Qed.

Lemma calculation_stands_snoc_keep pow app0 acts env a :
  a <> ClickClear ->
  (a = Submit -> guard_passes (form (run_actions pow app0 acts)) = false) ->
  calculation_stands pow app0 (acts ++ [(env, a)]) <->
  calculation_stands pow app0 acts.
Proof.
  intros Hnc Hfail. split.
  - intros (pre & env0 & post & E & Hg & Hno).
    destruct (snoc_split _ _ _ _ _ E) as [(_ & -> & Heq)|(post' & -> & ->)].
    + injection Heq as _ <-. rewrite (Hfail eq_refl) in Hg. discriminate.
    + exists pre, env0, post'. repeat split; [exact Hg|].
      intros env' Hin. apply (Hno env'). apply in_or_app. left. exact Hin.
  - intros (pre & env0 & post & -> & Hg & Hno).
    exists pre, env0, (post ++ [(env, a)]). repeat split.
    + rewrite <- app_assoc. reflexivity.
    + exact Hg.
    + intros env' Hin. apply in_app_or in Hin. destruct Hin as [Hin|[Heq|[]]].
      * exact (Hno env' Hin).
      * injection Heq as _ ->. apply Hnc. reflexivity.
Qed.

Lemma submit_delivers pow st :
  guard_passes st = true ->
  exists r,
    emissions (trace (calculate pow st)) = [Calculated r] /\
    forall previous,
      List.fold_left deliver (emissions (trace (calculate pow st))) previous = Some r.
Proof.
  intros Hg. rewrite (calculate_guard_passes pow st Hg).
  eexists. split; reflexivity.
Qed.

Lemma result_follows_actions pow app0 acts :
  result app0 = None ->
  (result (run_actions pow app0 acts) <> None <->
   calculation_stands pow app0 acts).
Proof.
  intros H0. induction acts as [|[env a] acts IH] using rev_ind.
  - simpl. rewrite H0. split; [congruence|].
    intros (pre & env & post & E & _). destruct pre; discriminate.
  - rewrite run_actions_snoc, step_result.
    destruct a.
    1-4: rewrite calculation_stands_snoc_keep by discriminate; exact IH.
    + destruct (guard_passes (form (run_actions pow app0 acts))) eqn:Hg.
      * destruct (submit_delivers pow _ Hg) as (r & _ & Hr). rewrite Hr.
        split; [intros _|discriminate].
        exists acts, env, []. repeat split; [exact Hg|]. intros env' [].
      * rewrite calculation_stands_snoc_keep; [exact IH|discriminate|].
        intros _. exact Hg.
    + split; [congruence|].
      intros Hs. exfalso. exact (calculation_stands_snoc_clear _ _ _ _ Hs).
Qed.

(** C8: over any sequence of actions on the freshly mounted form, a result
    exists exactly when some submit passed the guard of [calculate] and no
    clear came after it.  A clear emits the clear event and leaves no result;
    a submit that passes the guard replaces whatever result there was by the
    emitted record; a submit that fails the guard changes nothing. *)
Theorem result_exists_iff_calculation_stands pow acts :
  (result (run_actions pow initial_app acts) <> None <->
   calculation_stands pow initial_app acts) /\
  (forall app env,
     emissions (trace (clearAll env (form app))) = [Clear] /\
     result (step pow app (env, ClickClear)) = None) /\
  (forall app env,
     guard_passes (form app) = true ->
     exists r,
       emissions (trace (calculate pow (form app))) = [Calculated r] /\
       result (step pow app (env, Submit)) = Some r) /\
  (forall app env,
     guard_passes (form app) = false ->
     step pow app (env, Submit) = app).
Proof.
  split; [apply result_follows_actions; reflexivity|].
  split; [|split].
  - intros app env. split.
    + exact (proj2 (proj2 (clearAll_effects env (form app)))).
    + rewrite step_result. reflexivity.
  - intros app env Hg. rewrite step_result, Hg.
    destruct (submit_delivers pow _ Hg) as (r & Hr & Hd).
    exists r. split; [exact Hr|apply Hd].
  - intros app env Hg. destruct app as [st res].
    unfold step. cbn [fst snd form result] in *.
    rewrite handle_submit_final, handle_emissions.
    rewrite (calculate_guard_fails pow st Hg). reflexivity.
Qed.

Lemma result_exists_iff_calculation_stands_witness :
  result (run_actions pow_integral initial_app sample_actions) =
    Some (mkResult 584.59004150797819 175377.01245239345) /\
  calculation_stands pow_integral initial_app sample_actions /\
  result (run_actions pow_integral initial_app
            (sample_actions ++ [(mkEnv 1200 true, ClickClear)])) = None.
Proof.
  split; [vm_compute; reflexivity|]. split.
  - apply (proj1 (result_exists_iff_calculation_stands pow_integral sample_actions)).
    vm_compute. discriminate.
  - vm_compute. reflexivity.
Defined.

(** After a clear of a filled form the watcher runs on the empty text: the
    principal ends as NaN, which [calculate] treats like null. *)
Example clear_then_watcher :
  form (run_actions pow_integral initial_app
          (sample_actions ++ [(mkEnv 1200 true, ClickClear)])) =
    mkState [] (Some nan) None None Repayment false.
Proof. vm_compute. reflexivity. Qed.

(** ** More about the form in use *)

Lemma js_string_eqb_eq a b : js_string_eqb a b = true -> a = b.
Proof.
  unfold js_string_eqb. destruct (list_eq_dec N.eq_dec a b); [auto|discriminate].
Qed.

Lemma js_string_eqb_neq a b : js_string_eqb a b = false -> a <> b.
Proof.
  unfold js_string_eqb. destruct (list_eq_dec N.eq_dec a b); [discriminate|auto].
Qed.

(** The refs after an action and the watcher it may trigger. *)
Lemma handle_final pow env a st :
  final (handle pow env a st) =
    match a with
    | TypeAmount text =>
        if js_string_eqb (amountInput st) text then st
        else final (onAmountInput env text (apply_effect st (SetAmountInput text)))
    | TypeTerm v => apply_effect st (SetTerm v)
    | TypeRate v => apply_effect st (SetRate v)
    | ChooseType v => apply_effect st (SetType v)
    | Submit => st
    | ClickClear =>
        if js_string_eqb (amountInput st) []
        then mkState [] None None None Repayment (showAmountError st)
        else final (onAmountInput env []
                      (mkState [] None None None Repayment (showAmountError st)))
    end.
Proof.
  destruct a.
  - rewrite (proj2 (handle_run pow env _ st (body_completes pow env _ st))).
    cbn [perform final apply_effect amountInput].
    destruct (js_string_eqb (amountInput st) text) eqn:E; [|reflexivity].
    apply js_string_eqb_eq in E. subst text. destruct st; reflexivity.
  - rewrite (proj2 (handle_run pow env _ st (body_completes pow env _ st))).
    cbn [perform final apply_effect amountInput].
    rewrite js_string_eqb_refl. reflexivity.
  - rewrite (proj2 (handle_run pow env _ st (body_completes pow env _ st))).
    cbn [perform final apply_effect amountInput].
    rewrite js_string_eqb_refl. reflexivity.
  - rewrite (proj2 (handle_run pow env _ st (body_completes pow env _ st))).
    cbn [perform final apply_effect amountInput].
    rewrite js_string_eqb_refl. reflexivity.
  - apply handle_submit_final.
  - rewrite (proj2 (handle_run pow env _ st (body_completes pow env _ st))).
    rewrite (proj1 (proj2 (clearAll_effects env st))).
    cbn [amountInput].
    destruct (js_string_eqb (amountInput st) []); reflexivity.
Qed.

(** The refs after the watcher. *)
Lemma onAmountInput_final env text st :
  final (onAmountInput env text st) =
    if hasInvalidCharacters (sanitizeInput text)
    then mkState (amountInput st) None (term st) (rate st) (type st)
           (shouldShowError env)
    else mkState (amountInput st)
           (match parseCurrency (sanitizeInput text) with
            | Normal x => Some x
            | Throw _ => amount st
            end)
           (term st) (rate st) (type st) false.
Proof.
  destruct (hasInvalidCharacters (sanitizeInput text)) eqn:H.
  - rewrite (onAmountInput_invalid env text st H). reflexivity.
  - destruct (parseCurrency_returns (sanitizeInput text)) as [x Hx].
    rewrite (onAmountInput_valid env text st x H Hx), Hx. reflexivity.
Qed.

Lemma form_step pow app env a :
  form (step pow app (env, a)) = final (handle pow env a (form app)).
Proof. reflexivity. Qed.

(** A property of the form kept by every action of a session holds at its
    end. *)
Lemma run_actions_invariant pow (P : State -> Prop) (allowed : Action -> Prop) :
  (forall st env a, allowed a -> P st -> P (final (handle pow env a st))) ->
  forall acts app,
    (forall env a, In (env, a) acts -> allowed a) ->
    P (form app) -> P (form (run_actions pow app acts)).
Proof.
  intros Hstep acts. induction acts as [|[env a] acts IH]; intros app Hall HP.
  - exact HP.
  - cbn [run_actions fold_left]. apply IH.
    + intros env' a' Hin. apply (Hall env' a'). right. exact Hin.
    + rewrite form_step. apply Hstep; [|exact HP].
      apply (Hall env a). left. reflexivity.
Qed.

Lemma watcher_establishes_consistency env text st :
  amountInput st = text ->
  form_consistent (final (onAmountInput env text st)).
Proof.
  intros Ht. rewrite onAmountInput_final. unfold form_consistent, amount_in_sync.
  destruct (hasInvalidCharacters (sanitizeInput text)) eqn:H;
    cbn [showAmountError amountInput amount]; rewrite Ht, H.
  - split; [reflexivity|]. right. reflexivity.
  - split; [discriminate|]. right.
    destruct (parseCurrency_returns (sanitizeInput text)) as [x Hx].
    rewrite Hx. exists x. split; reflexivity.
Qed.

Lemma handle_keeps_consistency pow env a st :
  form_consistent st -> form_consistent (final (handle pow env a st)).
Proof.
  intros Hc. rewrite handle_final. destruct a; try exact Hc.
  - destruct (js_string_eqb (amountInput st) text); [exact Hc|].
    apply watcher_establishes_consistency. reflexivity.
  - destruct (js_string_eqb (amountInput st) []) eqn:E.
    + apply js_string_eqb_eq in E. destruct Hc as [Hflag _].
      split.
      * cbn [showAmountError amountInput]. intros Ht.
        specialize (Hflag Ht). rewrite E in Hflag. discriminate.
      * left. split; reflexivity.
    + apply watcher_establishes_consistency. reflexivity.
Qed.

Lemma initial_state_consistent : form_consistent initial_state.
Proof. split; [discriminate|]. left. split; reflexivity. Qed.

Lemma reachable_consistent pow acts :
  form_consistent (form (run_actions pow initial_app acts)).
Proof.
  apply (run_actions_invariant pow form_consistent (fun _ => True)).
  - intros st env a _. apply handle_keeps_consistency.
  - intros; exact I.
  - exact initial_state_consistent.
Qed.

(** X1: in every state a session can reach from the freshly mounted form, a
    principal that is a number is the number [parseCurrency] reads from the
    whitespace-stripped text now in the amount field, and that text has no
    invalid character. *)
Theorem principal_tracks_amount_text pow acts x :
  amount (form (run_actions pow initial_app acts)) = Some x ->
  hasInvalidCharacters
    (sanitizeInput (amountInput (form (run_actions pow initial_app acts)))) = false /\
  parseCurrency
    (sanitizeInput (amountInput (form (run_actions pow initial_app acts)))) = Normal x.
Proof.
  intros Hx. destruct (reachable_consistent pow acts) as [_ [[_ Hnone]|Hsync]].
  - rewrite Hnone in Hx. discriminate.
  - unfold amount_in_sync in Hsync.
    destruct (hasInvalidCharacters _).
    + rewrite Hsync in Hx. discriminate.
    + destruct Hsync as (x' & Hp & Ha). rewrite Ha in Hx. injection Hx as ->.
      split; [reflexivity|exact Hp].
Qed.

Lemma principal_tracks_amount_text_witness :
  amount (form (run_actions pow_integral initial_app sample_actions)) = Some 100000 /\
  hasInvalidCharacters
    (sanitizeInput
       (amountInput (form (run_actions pow_integral initial_app sample_actions))))
    = false /\
  parseCurrency
    (sanitizeInput
       (amountInput (form (run_actions pow_integral initial_app sample_actions))))
    = Normal 100000.
Proof.
  split; [vm_compute; reflexivity|].
  apply (principal_tracks_amount_text pow_integral sample_actions 100000).
  vm_compute. reflexivity.
Defined.

(** X2: in every state a session can reach from the freshly mounted form, the
    error flag is up only while the whitespace-stripped text in the amount
    field has a character other than a digit, a dot or a comma; in
    particular a clear lowers it. *)
Theorem error_flag_only_for_invalid_amount_text pow acts :
  showAmountError (form (run_actions pow initial_app acts)) = true ->
  hasInvalidCharacters
    (sanitizeInput (amountInput (form (run_actions pow initial_app acts)))) = true.
Proof. exact (proj1 (reachable_consistent pow acts)). Qed.

Lemma error_flag_only_for_invalid_amount_text_witness :
  showAmountError
    (form (run_actions pow_integral initial_app
             [(mkEnv 1200 false, TypeAmount (js "12a3"))])) = true /\
  hasInvalidCharacters
    (sanitizeInput
       (amountInput
          (form (run_actions pow_integral initial_app
                   [(mkEnv 1200 false, TypeAmount (js "12a3"))])))) = true.
Proof.
  split; [vm_compute; reflexivity|].
  apply (error_flag_only_for_invalid_amount_text pow_integral
           [(mkEnv 1200 false, TypeAmount (js "12a3"))]).
  vm_compute. reflexivity.
Defined.

(** X3: an action emits an event only if it is a submit that passes the
    guard of [calculate], and then the event is a calculated one, or a
    clear, and then the event is the clear one: editing a field never emits,
    with or without the watcher. *)
Theorem only_submit_and_clear_emit pow env a st e :
  In e (emissions (trace (handle pow env a st))) ->
  (a = Submit /\ guard_passes st = true /\ exists r, e = Calculated r) \/
  (a = ClickClear /\ e = Clear).
Proof.
  rewrite handle_emissions.
  destruct a; [intros []|intros []|intros []|intros []| | ].
  - destruct (guard_passes st) eqn:Hg.
    + rewrite (calculate_guard_passes pow st Hg). intros [<-|[]].
      left. repeat split. eexists. reflexivity.
    + rewrite (calculate_guard_fails pow st Hg). intros [].
  - intros [<-|[]]. right. split; reflexivity.
Qed.

Lemma only_submit_and_clear_emit_witness :
  In (Calculated (mkResult 584.59004150797819 175377.01245239345))
    (emissions (trace (handle pow_integral (mkEnv 1200 true) Submit sample_state))) /\
  ((Submit = Submit /\ guard_passes sample_state = true /\
    exists r, Calculated (mkResult 584.59004150797819 175377.01245239345)
              = Calculated r) \/
   (Submit = ClickClear /\
    Calculated (mkResult 584.59004150797819 175377.01245239345) = Clear)).
Proof.
  assert (H : In (Calculated (mkResult 584.59004150797819 175377.01245239345))
                (emissions (trace (handle pow_integral (mkEnv 1200 true) Submit
                                     sample_state)))).
  { vm_compute. left. reflexivity. }
  split; [exact H|].
  exact (only_submit_and_clear_emit pow_integral (mkEnv 1200 true) Submit
           sample_state _ H).
Defined.

Lemma term_stays_null pow env a st :
  (forall v, a <> TypeTerm v) -> term st = None ->
  term (final (handle pow env a st)) = None.
Proof.
  intros Ha Ht. rewrite handle_final. destruct a; try exact Ht.
  - destruct (js_string_eqb (amountInput st) text); [exact Ht|].
    rewrite onAmountInput_final.
    destruct (hasInvalidCharacters (sanitizeInput text)); exact Ht.
  - exfalso. exact (Ha v eq_refl).
  - destruct (js_string_eqb (amountInput st) []); [reflexivity|].
    rewrite onAmountInput_final.
    destruct (hasInvalidCharacters (sanitizeInput [])); reflexivity.
Qed.

Lemma rate_stays_null pow env a st :
  (forall v, a <> TypeRate v) -> rate st = None ->
  rate (final (handle pow env a st)) = None.
Proof.
  intros Ha Ht. rewrite handle_final. destruct a; try exact Ht.
  - destruct (js_string_eqb (amountInput st) text); [exact Ht|].
    rewrite onAmountInput_final.
    destruct (hasInvalidCharacters (sanitizeInput text)); exact Ht.
  - exfalso. exact (Ha v eq_refl).
  - destruct (js_string_eqb (amountInput st) []); [reflexivity|].
    rewrite onAmountInput_final.
    destruct (hasInvalidCharacters (sanitizeInput [])); reflexivity.
Qed.

Lemma amount_stays_unusable pow env a st :
  (forall text, a <> TypeAmount text) ->
  amountInput st = [] /\ falsy (amount st) = true ->
  amountInput (final (handle pow env a st)) = [] /\
  falsy (amount (final (handle pow env a st))) = true.
Proof.
  intros Ha [Hi Hf]. rewrite handle_final. destruct a; try (split; assumption).
  - exfalso. exact (Ha text eq_refl).
  - rewrite Hi, js_string_eqb_refl. split; reflexivity.
Qed.

Lemma clear_empties_form pow env st :
  let st' := final (handle pow env ClickClear st) in
  term st' = None /\ rate st' = None /\
  amountInput st' = [] /\ falsy (amount st') = true.
Proof.
  cbv zeta. rewrite handle_final.
  destruct (js_string_eqb (amountInput st) []); repeat split.
Qed.

(** X4: after a clear, a submit emits nothing and changes nothing as long as
    the term, the rate or the amount text has not been entered again,
    whatever else the user does in between. *)
Theorem cleared_form_needs_every_field pow app env acts env' :
  (forall e v, ~ In (e, TypeTerm v) acts) \/
  (forall e v, ~ In (e, TypeRate v) acts) \/
  (forall e text, ~ In (e, TypeAmount text) acts) ->
  let st := form (run_actions pow (step pow app (env, ClickClear)) acts) in
  guard_passes st = false /\
  emissions (trace (handle pow env' Submit st)) = [] /\
  final (handle pow env' Submit st) = st.
Proof.
  intros Hmissing st.
  assert (Hg : guard_passes st = false).
  { destruct (clear_empties_form pow env (form app)) as (Ht & Hr & Ha).
    unfold guard_passes. apply negb_false_iff.
    destruct Hmissing as [Hno|[Hno|Hno]].
    - assert (H : term st = None).
      { apply (run_actions_invariant pow (fun s => term s = None)
                 (fun a => forall v, a <> TypeTerm v)).
        - intros s e a. apply term_stays_null.
        - intros e a Hin v ->. exact (Hno e v Hin).
        - exact Ht. }
      rewrite H. cbn. rewrite orb_true_r. reflexivity.
    - assert (H : rate st = None).
      { apply (run_actions_invariant pow (fun s => rate s = None)
                 (fun a => forall v, a <> TypeRate v)).
        - intros s e a. apply rate_stays_null.
        - intros e a Hin v ->. exact (Hno e v Hin).
        - exact Hr. }
      rewrite H. cbn. rewrite !orb_true_r. reflexivity.
    - assert (H : amountInput st = [] /\ falsy (amount st) = true).
      { apply (run_actions_invariant pow
                 (fun s => amountInput s = [] /\ falsy (amount s) = true)
                 (fun a => forall text, a <> TypeAmount text)).
        - intros s e a. apply amount_stays_unusable.
        - intros e a Hin text ->. exact (Hno e text Hin).
        - exact Ha. }
      rewrite (proj2 H). reflexivity. }
  split; [exact Hg|]. split.
  - rewrite handle_emissions, (calculate_guard_fails pow st Hg). reflexivity.
  - apply handle_final.
Qed.

Lemma cleared_form_needs_every_field_witness :
  let acts := [(mkEnv 1200 true, TypeAmount (js "250000"));
               (mkEnv 1200 true, TypeRate (Some 4))] in
  let st :=
    form (run_actions pow_integral
            (step pow_integral
               (run_actions pow_integral initial_app sample_actions)
               (mkEnv 1200 true, ClickClear)) acts) in
  amount st = Some 250000 /\ rate st = Some 4 /\
  guard_passes st = false /\
  emissions (trace (handle pow_integral (mkEnv 1200 true) Submit st)) = [] /\
  final (handle pow_integral (mkEnv 1200 true) Submit st) = st.
Proof.
  cbv zeta. split; [vm_compute; reflexivity|]. split; [vm_compute; reflexivity|].
  apply (cleared_form_needs_every_field pow_integral
           (run_actions pow_integral initial_app sample_actions)
           (mkEnv 1200 true)
           [(mkEnv 1200 true, TypeAmount (js "250000"));
            (mkEnv 1200 true, TypeRate (Some 4))]
           (mkEnv 1200 true)).
  left. intros e v [H|[H|[]]]; discriminate.
Defined.

(** ** More about the amount normaliser *)

Lemma sanitizeInput_app a b :
  sanitizeInput (a ++ b) = sanitizeInput a ++ sanitizeInput b.
Proof. unfold sanitizeInput, remove_all. apply filter_app. Qed.

Lemma sanitizeInput_spaces w :
  (forall c, In c w -> is_space c = true) -> sanitizeInput w = [].
Proof.
  unfold sanitizeInput, remove_all.
  induction w as [|c w IH]; intros H; [reflexivity|].
  cbn [filter]. rewrite (H c (or_introl eq_refl)). cbn [negb].
  apply IH. intros c' Hin. apply H. right. exact Hin.
Qed.

(** X5: white space is ignored wherever it stands in the amount text: the
    watcher does the same with and without a run of white space inserted
    anywhere, and what it parses holds no white space. *)
Theorem normalize_ignores_whitespace env st a w b :
  (forall c, In c w -> is_space c = true) ->
  onAmountInput env (a ++ w ++ b) st = onAmountInput env (a ++ b) st /\
  forall c, In c (sanitizeInput (a ++ w ++ b)) -> is_space c = false.
Proof.
  intros Hw. split.
  - unfold onAmountInput.
    rewrite !sanitizeInput_app, (sanitizeInput_spaces w Hw). reflexivity.
  - intros c Hin. unfold sanitizeInput, remove_all in Hin.
    apply filter_In in Hin. destruct Hin as [_ Hc].
    apply negb_true_iff in Hc. exact Hc.
Qed.

Lemma normalize_ignores_whitespace_witness :
  (forall c, In c [32; 9; 160]%N -> is_space c = true) /\
  onAmountInput (mkEnv 1200 false) (js "1" ++ [32; 9; 160]%N ++ js "00") initial_state
    = onAmountInput (mkEnv 1200 false) (js "1" ++ js "00") initial_state /\
  forall c, In c (sanitizeInput (js "1" ++ [32; 9; 160]%N ++ js "00")) ->
            is_space c = false.
Proof.
  assert (Hw : forall c, In c [32; 9; 160]%N -> is_space c = true).
  { intros c [<-|[<-|[<-|[]]]]; reflexivity. }
  split; [exact Hw|].
  exact (normalize_ignores_whitespace (mkEnv 1200 false) initial_state
           (js "1") [32; 9; 160]%N (js "00") Hw).
Defined.

(** X6: for a whitespace-stripped text of digits and commas without a dot,
    the commas are dropped wherever they stand and the principal is the
    number written by the digits (NaN when there is no digit). *)
Theorem normalize_without_dot env st text :
  hasInvalidCharacters (sanitizeInput text) = false ->
  ~ In chr_dot (sanitizeInput text) ->
  onAmountInput env text st =
    mkRun (Normal tt)
      (mkState (amountInput st)
         (Some (decimal_number (digits_only (sanitizeInput text)) []))
         (term st) (rate st) (type st) false)
      [SetShowAmountError false;
       SetAmount (Some (decimal_number (digits_only (sanitizeInput text)) []))].
Proof.
  intros Hv Hnd. apply (onAmountInput_valid env text st _ Hv).
  unfold parseCurrency. rewrite (split_no_sep chr_dot _ Hnd). cbn [nth_error].
  rewrite (cleanDecimal_digits _ (hasInvalidCharacters_false _ Hv)).
  rewrite (parseFloat_digits _ (digits_only_digits _)). reflexivity.
Qed.

Lemma normalize_without_dot_witness :
  hasInvalidCharacters (sanitizeInput (js "1,00,0")) = false /\
  ~ In chr_dot (sanitizeInput (js "1,00,0")) /\
  decimal_number (digits_only (sanitizeInput (js "1,00,0"))) [] = 1000 /\
  onAmountInput (mkEnv 1200 false) (js "1,00,0") initial_state =
    mkRun (Normal tt)
      (mkState [] (Some (decimal_number (digits_only (sanitizeInput (js "1,00,0"))) []))
         None None Repayment false)
      [SetShowAmountError false;
       SetAmount (Some (decimal_number (digits_only (sanitizeInput (js "1,00,0"))) []))].
Proof.
  assert (Hnd : ~ In chr_dot (sanitizeInput (js "1,00,0"))).
  { vm_compute. intuition discriminate. }
  split; [reflexivity|]. split; [exact Hnd|]. split; [vm_compute; reflexivity|].
  exact (normalize_without_dot (mkEnv 1200 false) initial_state (js "1,00,0")
           eq_refl Hnd).
Defined.

Lemma digits_only_no_dot a : ~ In chr_dot (digits_only a).
Proof. intros H. apply digits_only_digits in H. discriminate. Qed.

Lemma digits_only_idempotent a : digits_only (digits_only a) = digits_only a.
Proof.
  unfold digits_only, remove_all.
  induction a as [|c a IH]; [reflexivity|].
  cbn [filter]. destruct (negb (negb (is_digit c))) eqn:E; [|exact IH].
  cbn [filter]. rewrite E, IH. reflexivity.
Qed.

Lemma parseCurrency_two_segments a b s :
  b <> [] ->
  (exists rest, split chr_dot s = a :: b :: rest) ->
  parseCurrency s = Normal (parseFloat (digits_only a ++ [chr_dot] ++ b)).
Proof.
  intros Hb [rest Hs]. unfold parseCurrency. rewrite Hs. cbn [nth_error].
  destruct b as [|c d]; [contradiction|]. reflexivity.
Qed.

(** X7: [parseCurrency] reads the first two dot-separated segments and no
    more: when the second segment is not empty, everything from the second
    dot on is ignored, and so is every character before the first dot that
    is not a digit. *)
Theorem parseCurrency_reads_two_segments a b r :
  ~ In chr_dot a -> ~ In chr_dot b -> b <> [] ->
  parseCurrency (a ++ chr_dot :: b ++ chr_dot :: r) = parseCurrency (a ++ chr_dot :: b) /\
  parseCurrency (a ++ chr_dot :: b) = parseCurrency (digits_only a ++ chr_dot :: b).
Proof.
  intros Ha Hb Hne.
  assert (H1 : parseCurrency (a ++ chr_dot :: b ++ chr_dot :: r) =
               Normal (parseFloat (digits_only a ++ [chr_dot] ++ b))).
  { apply (parseCurrency_two_segments a b _ Hne).
    apply (split_first_two a b (chr_dot :: r) Ha Hb).
    right. exists r. reflexivity. }
  assert (H2 : parseCurrency (a ++ chr_dot :: b) =
               Normal (parseFloat (digits_only a ++ [chr_dot] ++ b))).
  { apply (parseCurrency_two_segments a b _ Hne).
    destruct (split_first_two a b [] Ha Hb (or_introl eq_refl)) as [segs Hs].
    rewrite app_nil_r in Hs. exists segs. exact Hs. }
  assert (H3 : parseCurrency (digits_only a ++ chr_dot :: b) =
               Normal (parseFloat (digits_only (digits_only a) ++ [chr_dot] ++ b))).
  { apply (parseCurrency_two_segments (digits_only a) b _ Hne).
    destruct (split_first_two (digits_only a) b [] (digits_only_no_dot a) Hb
                (or_introl eq_refl)) as [segs Hs].
    rewrite app_nil_r in Hs. exists segs. exact Hs. }
  rewrite digits_only_idempotent in H3.
  split; congruence.
Qed.

Lemma parseCurrency_reads_two_segments_witness :
  parseCurrency (js "1,2.5.9") = parseCurrency (js "1,2.5") /\
  parseCurrency (js "1,2.5") = parseCurrency (js "12.5").
Proof.
  apply (parseCurrency_reads_two_segments (js "1,2") (js "5") (js "9")).
  - vm_compute. intuition discriminate.
  - vm_compute. intuition discriminate.
  - discriminate.
Defined.

(** X8: the watcher writes [showAmountError] and [amount] and nothing else:
    the amount text, the term, the rate and the type are as before, nothing
    is emitted and nothing is blurred; and what it writes depends on the
    text and the window only, not on what the refs held. *)
Theorem watcher_writes_only_flag_and_amount env text st st' :
  completion (onAmountInput env text st) = Normal tt /\
  amountInput (final (onAmountInput env text st)) = amountInput st /\
  term (final (onAmountInput env text st)) = term st /\
  rate (final (onAmountInput env text st)) = rate st /\
  type (final (onAmountInput env text st)) = type st /\
  emissions (trace (onAmountInput env text st)) = [] /\
  ~ In Blur (trace (onAmountInput env text st)) /\
  amount (final (onAmountInput env text st)) =
    amount (final (onAmountInput env text st')) /\
  showAmountError (final (onAmountInput env text st)) =
    showAmountError (final (onAmountInput env text st')).
Proof.
  destruct (hasInvalidCharacters (sanitizeInput text)) eqn:H.
  - rewrite !(onAmountInput_invalid env text _ H).
    repeat split. cbn. intuition discriminate.
  - destruct (parseCurrency_returns (sanitizeInput text)) as [x Hx].
    rewrite !(onAmountInput_valid env text _ x H Hx).
    repeat split. cbn. intuition discriminate.
Qed.

(** ** More about the calculator *)

Lemma Prim2SF_infinity : Prim2SF infinity = S754_infinity false.
Proof. reflexivity. Qed.

(** A number is truthy exactly when it is below or above zero. *)
Lemma truthy_iff_nonzero x :
  is_zero x || is_nan x = false <-> (x <? 0) = true \/ (0 <? x) = true.
Proof.
  split.
  - unfold is_zero, is_nan. rewrite !ltb_spec, !eqb_spec, Prim2SF_zero.
    unfold SFltb, SFeqb.
    destruct (Prim2SF x) as [s|s| |s m e].
    + destruct s; simpl; discriminate.
    + destruct s; simpl; intros _; [left|right]; reflexivity.
    + simpl. discriminate.
    + destruct s; simpl; intros _; [left|right]; reflexivity.
  - intros [H|H].
    + destruct (negative_truthy x H) as [Hz Hn]. rewrite Hz, Hn. reflexivity.
    + destruct (positive_truthy x H) as [Hz Hn]. rewrite Hz, Hn. reflexivity.
Qed.

Lemma not_falsy_iff v :
  falsy v = false <-> exists x, v = Some x /\ ((x <? 0) = true \/ (0 <? x) = true).
Proof.
  destruct v as [x|]; simpl.
  - rewrite truthy_iff_nonzero. split.
    + intros H. exists x. split; [reflexivity|exact H].
    + intros (x' & E & H). injection E as ->. exact H.
  - split; [discriminate|]. intros (x & E & _). discriminate.
Qed.

(** X9: [calculate] emits a result exactly when the principal, the term and
    the rate are all numbers strictly below or strictly above zero (negative
    and infinite values included; null, zeros and NaN excluded).  It then
    emits one calculated event; in every case it returns normally and
    leaves the refs as they were. *)
Theorem calculate_emits_iff_nonzero pow st :
  completion (calculate pow st) = Normal tt /\
  final (calculate pow st) = st /\
  (trace (calculate pow st) = [] \/
   exists r, trace (calculate pow st) = [Emit (Calculated r)]) /\
  ((exists r, trace (calculate pow st) = [Emit (Calculated r)]) <->
   (exists p, amount st = Some p /\ ((p <? 0) = true \/ (0 <? p) = true)) /\
   (exists t, term st = Some t /\ ((t <? 0) = true \/ (0 <? t) = true)) /\
   (exists a, rate st = Some a /\ ((a <? 0) = true \/ (0 <? a) = true))).
Proof.
  rewrite <- !not_falsy_iff.
  destruct (guard_passes st) eqn:Hg.
  - rewrite (calculate_guard_passes pow st Hg).
    unfold guard_passes in Hg. apply negb_true_iff in Hg.
    apply orb_false_iff in Hg. destruct Hg as [Hg Hr].
    apply orb_false_iff in Hg. destruct Hg as [Ha Ht].
    split; [reflexivity|]. split; [reflexivity|].
    split; [right; eexists; reflexivity|].
    split; [intros _; repeat split; assumption|].
    intros _. eexists. reflexivity.
  - rewrite (calculate_guard_fails pow st Hg).
    unfold guard_passes in Hg. apply negb_false_iff in Hg.
    split; [reflexivity|]. split; [reflexivity|].
    split; [left; reflexivity|].
    split; [intros [r Hr]; discriminate|].
    intros (Ha & Ht & Hr). rewrite Ha, Ht, Hr in Hg. discriminate.
Qed.

Lemma calculate_emits_iff_nonzero_witness :
  (exists r, trace (calculate pow_integral negative_rate_state) = [Emit (Calculated r)]) /\
  (exists a, rate negative_rate_state = Some a /\ ((a <? 0) = true \/ (0 <? a) = true)).
Proof.
  destruct (calculate_emits_iff_nonzero pow_integral negative_rate_state)
    as (_ & _ & _ & Hiff).
  assert (He : exists r, trace (calculate pow_integral negative_rate_state)
                         = [Emit (Calculated r)]).
  { eexists. vm_compute. reflexivity. }
  split; [exact He|]. exact (proj2 (proj2 (proj1 Hiff He))).
Defined.

Lemma not_finite_spec x :
  is_finite x = false <->
  Prim2SF x = S754_nan \/ exists s, Prim2SF x = S754_infinity s.
Proof.
  unfold is_finite, is_infinity. rewrite negb_false_iff, orb_true_iff.
  rewrite is_nan_spec, eqb_spec, abs_spec, Prim2SF_infinity. unfold SFeqb.
  destruct (Prim2SF x) as [s|s| |s m e]; simpl.
  - split; [intros [H|H]; discriminate|].
    intros [H|[s' H]]; discriminate.
  - split; [intros _; right; exists s; reflexivity|].
    intros _. right. reflexivity.
  - split; [intros _; left; reflexivity|]. intros _. left. reflexivity.
  - split; [intros [H|H]; [discriminate|]|intros [H|[s' H]]; discriminate].
    destruct (e ?= e)%Z; try discriminate.
Qed.

(** Dividing by zero gives an infinity or NaN. *)
Lemma div_by_zero_not_finite x : is_finite (x / 0) = false.
Proof.
  apply not_finite_spec. rewrite div_spec, Prim2SF_zero.
  destruct (Prim2SF x) as [s|s| |s m e]; simpl.
  - left. reflexivity.
  - right. eexists. reflexivity.
  - left. reflexivity.
  - right. eexists. reflexivity.
Qed.

(** An infinity or NaN times anything is an infinity or NaN. *)
Lemma mul_not_finite x y : is_finite x = false -> is_finite (x * y) = false.
Proof.
  rewrite !not_finite_spec, mul_spec.
  intros [H|[s H]]; rewrite H.
  - left. reflexivity.
  - destruct (Prim2SF y) as [s'|s'| |s' m e]; simpl.
    + left. reflexivity.
    + right. eexists. reflexivity.
    + left. reflexivity.
    + right. eexists. reflexivity.
Qed.

(** X10: nothing guards the denominator of the repayment formula: when
    [Math.pow(1 + monthlyRate, -months)] is exactly 1 (a rate so small that
    [1 + monthlyRate] rounds to 1), a repayment calculation that passes the
    guard still emits a result, and neither its monthly payment nor its
    total is a finite number. *)
Theorem zero_denominator_result_not_finite pow st :
  guard_passes st = true ->
  type st = Repayment ->
  pow (1 + ToNumber (rate st) / 100 / 12) (- (ToNumber (term st) * 12)) = 1 ->
  exists r,
    emissions (trace (calculate pow st)) = [Calculated r] /\
    is_finite (monthly r) = false /\ is_finite (total r) = false.
Proof.
  intros Hg Hty Hpow. rewrite (calculate_guard_passes pow st Hg).
  eexists. split; [reflexivity|].
  cbn [monthly total]. unfold spec_monthlyPayment, spec_monthlyRate, spec_months.
  rewrite Hty, Hpow. change (1 - 1) with 0.
  split; [|apply mul_not_finite]; apply div_by_zero_not_finite.
Qed.

Lemma zero_denominator_result_not_finite_witness :
  let st := mkState (js "100000") (Some 100000) (Some 25) (Some 1e-14)
              Repayment false in
  guard_passes st = true /\
  pow_integral (1 + 1e-14 / 100 / 12) (- (25 * 12)) = 1 /\
  exists r,
    emissions (trace (calculate pow_integral st)) = [Calculated r] /\
    is_finite (monthly r) = false /\ is_finite (total r) = false.
Proof.
  cbv zeta. split; [reflexivity|]. split; [vm_compute; reflexivity|].
  apply (zero_denominator_result_not_finite pow_integral
           (mkState (js "100000") (Some 100000) (Some 25) (Some 1e-14)
              Repayment false)).
  - reflexivity.
  - reflexivity.
  - vm_compute. reflexivity.
Defined.

(** ** The sign of the principal *)

Lemma binary_round_sign_clear m e :
  sign_clear (binary_round prec emax false m e).
Proof.
  unfold binary_round, binary_round_aux.
  destruct (shl_align m e _) as [mz ez].
  destruct (shr_fexp prec emax (Zpos mz) ez loc_Exact) as [mrs' e'].
  destruct (shr_fexp prec emax _ e' loc_Exact) as [mrs'' e''].
  destruct (shr_m mrs''); [reflexivity| |exact I].
  destruct (e'' <=? emax - prec)%Z; reflexivity.
Qed.

Lemma binary_normalize_sign_clear z e :
  (0 <= z)%Z -> sign_clear (binary_normalize prec emax z e false).
Proof.
  destruct z; intros Hz; [reflexivity|apply binary_round_sign_clear|lia].
Qed.

Lemma SF2Prim_sign_clear v : sign_clear v -> sign_clear (Prim2SF (SF2Prim v)).
Proof.
  destruct v as [s|s| |s m e]; cbn [sign_clear].
  - intros ->. reflexivity.
  - intros ->. reflexivity.
  - intros _. reflexivity.
  - intros ->. cbn [SF2Prim]. rewrite Z_ldexp_spec, of_uint63_spec.
    assert (H := binary_normalize_sign_clear
                   (Uint63.to_Z (Uint63.of_Z (Zpos m))) 0
                   (proj1 (Uint63.to_Z_bounded _))).
    destruct (binary_normalize prec emax _ 0 false) as [s|s| |s m' e'];
      cbn [sign_clear SFldexp] in *; try exact H.
    subst s. apply binary_round_sign_clear.
Qed.

Lemma sign_clear_not_negative x : sign_clear (Prim2SF x) -> (x <? 0) = false.
Proof.
  rewrite ltb_spec, Prim2SF_zero. unfold SFltb.
  destruct (Prim2SF x) as [s|s| |s m e]; cbn [sign_clear];
    try (intros ->); reflexivity.
Qed.

Lemma round_ratio_sign_clear p q :
  (0 <= p)%Z -> (0 < q)%Z -> sign_clear (Prim2SF (round_ratio p q)).
Proof.
  intros Hp Hq. unfold round_ratio.
  apply SF2Prim_sign_clear, binary_normalize_sign_clear.
  set (s := Z.max 0 (Z.log2 q - Z.log2 p + 64)).
  assert (Hn : (0 <= Z.shiftl p s)%Z) by (apply Z.shiftl_nonneg; exact Hp).
  assert (Hd : (0 <= Z.shiftl p s / q)%Z) by (apply Z.div_pos; assumption).
  destruct (Z.shiftl p s mod q =? 0)%Z; lia.
Qed.

Lemma Number_of_decimal_sign_clear m e :
  (0 <= m)%Z -> sign_clear (Prim2SF (Number_of_decimal m e)).
Proof.
  intros Hm. unfold Number_of_decimal.
  destruct (m =? 0)%Z; [reflexivity|].
  destruct (0 <=? e)%Z eqn:He.
  - apply round_ratio_sign_clear; [|lia].
    apply Z.mul_nonneg_nonneg; [exact Hm|]. apply Z.pow_nonneg. lia.
  - apply round_ratio_sign_clear; [exact Hm|].
    apply Z.leb_gt in He. apply Z.pow_pos_nonneg; lia.
Qed.

Lemma digits_value_nonneg ds :
  (forall c, In c ds -> is_digit c = true) -> (0 <= digits_value ds)%Z.
Proof.
  unfold digits_value.
  assert (G : forall l a, (forall c, In c l -> is_digit c = true) -> (0 <= a)%Z ->
               (0 <= fold_left (fun acc c => 10 * acc + (Z.of_N c - 48)) l a)%Z).
  { induction l as [|c l IH]; intros a Hl Ha; [exact Ha|].
    cbn [fold_left]. apply IH; [intros c' Hin; apply Hl; right; exact Hin|].
    assert (Hc := is_digit_range c (Hl c (or_introl eq_refl))). lia. }
  intros H. apply G; [exact H|lia].
Qed.

(** [parseFloat] of a text that starts with a digit or a dot is not
    negative. *)
Lemma parseFloat_unsigned_sign_clear s :
  number_start s -> sign_clear (Prim2SF (parseFloat s)).
Proof.
  intros Hs. rewrite (parseFloat_unsigned s Hs).
  destruct (span_spec is_digit s) as (_ & Hip & _).
  destruct (span is_digit s) as [ip r1]. cbn [fst] in Hip.
  assert (Hfp : forall r, (forall c, In c (fst (span is_digit r)) -> is_digit c = true))
    by (intros r; exact (proj1 (proj2 (span_spec is_digit r)))).
  assert (G : forall fp r2,
             (forall c, In c fp -> is_digit c = true) ->
             sign_clear
               (Prim2SF
                  match ip ++ fp with
                  | [] => nan
                  | ds =>
                      Number_of_decimal (digits_value ds)
                        (exponent_part r2 - Z.of_nat (List.length fp))
                  end)).
  { intros fp r2 Hf. destruct (ip ++ fp) as [|c l] eqn:E; [exact I|].
    apply Number_of_decimal_sign_clear, digits_value_nonneg.
    rewrite <- E. intros c' Hin. apply in_app_or in Hin.
    destruct Hin; auto. }
  destruct r1 as [|c r].
  - apply G. intros c [].
  - destruct (c =? chr_dot)%N.
    + specialize (Hfp r). destruct (span is_digit r) as [fp r2].
      apply G. exact Hfp.
    + apply G. intros c' [].
Qed.

(** The principal [parseCurrency] reads from a text of digits, dots and
    commas is not negative. *)
Lemma parseCurrency_valid_sign_clear s x :
  hasInvalidCharacters s = false ->
  parseCurrency s = Normal x -> sign_clear (Prim2SF x).
Proof.
  intros Hv. assert (Hvalid := hasInvalidCharacters_false s Hv).
  unfold parseCurrency.
  rewrite (cleanDecimal_digits s Hvalid).
  assert (Hclean : sign_clear (Prim2SF (parseFloat (digits_only s)))).
  { apply parseFloat_unsigned_sign_clear.
    rewrite <- (app_nil_r (digits_only s)).
    apply number_start_digits; [apply digits_only_digits|exact I]. }
  destruct (nth_error (split chr_dot s) 1) as [[|c d]|].
  - intros E. injection E as <-. exact Hclean.
  - destruct (nth_error (split chr_dot s) 0) as [i|]; [|discriminate].
    intros E. injection E as <-.
    apply parseFloat_unsigned_sign_clear.
    apply number_start_digits; [apply digits_only_digits|].
    right. reflexivity.
  - intros E. injection E as <-. exact Hclean.
Qed.

(** X11: the watcher never stores a negative principal: whatever the text,
    a principal that is a number is not below zero (a minus sign is an
    invalid character, and the digits, dots and commas that remain are read
    as an unsigned number).  So in every state a session can reach, the
    principal [calculate] reads is not below zero. *)
Theorem principal_never_negative pow :
  (forall env text st x,
     amount (final (onAmountInput env text st)) = Some x -> (x <? 0) = false) /\
  (forall acts x,
     amount (form (run_actions pow initial_app acts)) = Some x -> (x <? 0) = false).
Proof.
  split.
  - intros env text st x. rewrite onAmountInput_final.
    destruct (hasInvalidCharacters (sanitizeInput text)) eqn:Hv;
      cbn [amount]; [discriminate|].
    destruct (parseCurrency (sanitizeInput text)) as [y|msg] eqn:Hp.
    + intros E. injection E as <-.
      exact (sign_clear_not_negative _
               (parseCurrency_valid_sign_clear _ _ Hv Hp)).
    + destruct (parseCurrency_returns (sanitizeInput text)) as [y Hy].
      rewrite Hy in Hp. discriminate.
  - intros acts x Hx.
    destruct (reachable_consistent pow acts) as [_ [[_ Hnone]|Hsync]].
    + rewrite Hnone in Hx. discriminate.
    + unfold amount_in_sync in Hsync.
      destruct (hasInvalidCharacters _) eqn:Hv.
      * rewrite Hsync in Hx. discriminate.
      * destruct Hsync as (y & Hp & Ha). rewrite Ha in Hx. injection Hx as ->.
        exact (sign_clear_not_negative _
                 (parseCurrency_valid_sign_clear _ _ Hv Hp)).
Qed.

Lemma principal_never_negative_witness :
  amount (final (onAmountInput (mkEnv 1200 false) (js "1,234.56") initial_state))
    = Some 1234.56 /\
  (1234.56 <? 0) = false.
Proof.
  assert (H : amount (final (onAmountInput (mkEnv 1200 false) (js "1,234.56")
                               initial_state)) = Some 1234.56).
  { vm_compute. reflexivity. }
  split; [exact H|].
  exact (proj1 (principal_never_negative pow_integral) _ _ _ _ H).
Defined.

(** ** The result panel *)

(** X12: a change of the [result] prop plays at most one animation: the
    entrance on [resultBox] when a result appears where there was none, the
    exit on [heroBox] when the result goes away, each only if its element is
    mounted after the tick; a result that replaces a result, and an absent
    value that replaces an absent value, play nothing.  With the template as
    rendered for the new value the element is always there, so neither
    animation is skipped. *)
Theorem animation_on_appear_and_disappear_only dom newVal oldVal :
  ContainerRight.onResultChange dom newVal oldVal =
    (if ContainerRight.truthy newVal && negb (ContainerRight.truthy oldVal)
        && ContainerRight.resultBox_mounted dom
     then [ContainerRight.mkTween ContainerRight.resultBox
             (ContainerRight.mkTweenVars 0 40 None None)
             (ContainerRight.mkTweenVars 1 0 (Some 0.7) (Some "power2.out"%string))]
     else if negb (ContainerRight.truthy newVal) && ContainerRight.truthy oldVal
             && ContainerRight.heroBox_mounted dom
     then [ContainerRight.mkTween ContainerRight.heroBox
             (ContainerRight.mkTweenVars 0 (-40) None None)
             (ContainerRight.mkTweenVars 1 0 (Some 0.7) (Some "power2.out"%string))]
     else []) /\
  (ContainerRight.onResultChange (ContainerRight.render newVal) newVal oldVal = [] <->
   ContainerRight.truthy newVal = ContainerRight.truthy oldVal).
Proof.
  split.
  - unfold ContainerRight.onResultChange, ContainerRight.executeAnimation.
    destruct newVal, oldVal, dom as [[|] [|]]; reflexivity.
  - destruct newVal, oldVal; cbn; split; try reflexivity; discriminate.
Qed.

Lemma watch_results_alternate oldVal values :
  ContainerRight.alternate (negb (ContainerRight.truthy oldVal))
    (ContainerRight.watch_results oldVal values) = true.
Proof.
  revert oldVal. induction values as [|newVal rest IH]; intros oldVal.
  - reflexivity.
  - cbn [ContainerRight.watch_results].
    specialize (IH newVal). destruct newVal, oldVal; cbn in *; exact IH.
Qed.

Lemma watch_results_balance oldVal values :
  (List.length (List.filter ContainerRight.is_entrance
                  (ContainerRight.watch_results oldVal values))
   + (if ContainerRight.truthy oldVal then 1 else 0)
   = List.length (List.filter (fun t => negb (ContainerRight.is_entrance t))
                    (ContainerRight.watch_results oldVal values))
     + (if ContainerRight.truthy (List.last values oldVal) then 1 else 0))%nat.
Proof.
  revert oldVal. induction values as [|newVal rest IH]; intros oldVal.
  - reflexivity.
  - cbn [ContainerRight.watch_results].
    specialize (IH newVal).
    assert (Hl : List.last (newVal :: rest) oldVal = List.last rest newVal).
    { clear. revert newVal oldVal.
      induction rest as [|v rest IHr]; intros newVal oldVal; [reflexivity|].
      transitivity (List.last rest v); [exact (IHr v oldVal)|].
      symmetry. exact (IHr v newVal). }
    rewrite Hl. destruct newVal, oldVal; cbn in *; lia.
Qed.

(** X13: over any succession of values of the [result] prop, rendered by
    the template, the entrance and exit animations take turns, starting with
    an entrance when no result was shown and with an exit when one was; the
    entrances outnumber the exits by one exactly when a result has come to
    be shown, and recalculating never plays an animation twice in a row. *)
Theorem animations_alternate oldVal values :
  ContainerRight.alternate (negb (ContainerRight.truthy oldVal))
    (ContainerRight.watch_results oldVal values) = true /\
  (List.length (List.filter ContainerRight.is_entrance
                  (ContainerRight.watch_results oldVal values))
   + (if ContainerRight.truthy oldVal then 1 else 0)
   = List.length (List.filter (fun t => negb (ContainerRight.is_entrance t))
                    (ContainerRight.watch_results oldVal values))
     + (if ContainerRight.truthy (List.last values oldVal) then 1 else 0))%nat.
Proof.
  split; [apply watch_results_alternate|apply watch_results_balance].
Qed.

(** A session at the panel: a result, a recalculation, a clear and a new
    result play an entrance, nothing, an exit and an entrance. *)
Example panel_session :
  List.map ContainerRight.target
    (ContainerRight.watch_results None
       [Some (mkResult 584.59 175377.01); Some (mkResult 416.67 125000);
        None; Some (mkResult 584.59 175377.01)]) =
    [ContainerRight.resultBox; ContainerRight.heroBox; ContainerRight.resultBox].
Proof. reflexivity. Qed.
